(** * Discrete stepwise optimiser of state_reconstruction_cpp

    Shallow embedding of [include/optimize.hpp]: the key comparator
    [EigenVectorXfCompare], the memoising descent
    [minimize_discrete_stepwise_cpp] and its adapter
    [maximize_discrete_stepwise_cpp].

    - [float] is IEEE binary32, modelled by [spec_float] with precision 24
      and exponent bound 128; every arithmetic operation of the source is
      the corresponding correctly rounded [SpecFloat] operation.
    - [Eigen::VectorXf] is a list of binary32 values, [Eigen::MatrixXf] a
      list of rows.
    - [int] and [size_t] values are integers in [Z]; the unsigned
      wrap-around in the computation of the search level is written out.
      Signed overflow and out-of-range conversions are undefined in the
      source; the theorems about the lattice assume [lattice_in_range].
    - [std::map<VectorXf, float, EigenVectorXfCompare>] is modelled by its
      lookup behaviour: an association list in insertion order, searched for
      the first key that is equivalent under the comparator.  A hash or
      Leibniz-keyed map would be wrong here, because the comparator
      identifies [+0] and [-0].  On keys of one size without NaN the
      comparator is a strict weak order and this is what the container
      computes; keys of different sizes trip the comparator's assertion and
      keys with NaN coordinates break the container's requirements, and the
      source's behaviour is then not defined; [run_in_domain] delimits the
      calls that stay inside that domain.
    - The objective is a pure function; the state carries, besides the
      cache, a log of the points at which the objective was invoked.
    - A call ends by returning a point, by throwing [std::invalid_argument],
      or in one of the two places where an Eigen index or size assertion
      fails. *)

From Stdlib Require Import String.
From Stdlib Require Import ZArith List Bool Lia.
From Stdlib Require Import SpecFloat.
Import ListNotations.
Local Open Scope Z_scope.

(** ** binary32 *)

Module F32.

Definition prec : Z := 24.
Definition emax : Z := 128.

Definition add : spec_float -> spec_float -> spec_float := SFadd prec emax.
Definition mul : spec_float -> spec_float -> spec_float := SFmul prec emax.
Definition neg : spec_float -> spec_float := SFopp.
Definition abs : spec_float -> spec_float := SFabs.
Definition ltb : spec_float -> spec_float -> bool := SFltb.
Definition leb : spec_float -> spec_float -> bool := SFleb.

(** Conversion [int -> float] (round to nearest even). *)
Definition of_int (z : Z) : spec_float := binary_normalize prec emax z 0 false.

(** [__FLT_MAX__] = (2^24 - 1) * 2^104. *)
Definition FLT_MAX : spec_float := SFmax_float prec emax.

(** [NumTraits<float>::dummy_precision()] = [1e-5f], whose binary32 value is
    10995116 * 2^-40 (bit pattern 0x3727C5AC). *)
Definition dummy_precision : spec_float := S754_finite false 10995116 (-40).

Definition is_nan (x : spec_float) : bool :=
  match x with S754_nan => true | _ => false end.

Definition is_zero (x : spec_float) : bool :=
  match x with S754_zero _ => true | _ => false end.

(** Finite values, zeros included. *)
Definition is_finite (x : spec_float) : bool :=
  match x with S754_zero _ | S754_finite _ _ _ => true | _ => false end.

End F32.

Definition VectorXf := list spec_float.
Definition MatrixXf := list VectorXf.

(** ** [EigenVectorXfCompare] (optimize.hpp, lines 6-18)

    The source asserts [a.size() == b.size()]; on lists of equal length the
    recursion below is the source's loop (on others it stops at the end of
    the shorter one).  [a[i] > b[i]] is [b[i] < a[i]]. *)
Fixpoint EigenVectorXfCompare (a b : VectorXf) : bool :=
  match a, b with
  | ai :: a', bi :: b' =>
      if F32.ltb ai bi then true
      else if F32.ltb bi ai then false
      else EigenVectorXfCompare a' b'
  | _, _ => false
  end.

(** Two keys denote the same map entry when neither is less than the other. *)
Definition key_equiv (a b : VectorXf) : bool :=
  negb (EigenVectorXfCompare a b) && negb (EigenVectorXfCompare b a).

(** ** The results cache *)

Definition Cache := list (VectorXf * spec_float).

(** [results_cache.find(key)]: the stored value of the entry equivalent to
    [key], if there is one.  This is what the container computes when cache
    keys and [key] have one size and no NaN coordinate ([cache_in_domain],
    [run_in_domain] below); with other keys in play the comparator is not a
    strict weak ordering and the container's answers are not defined. *)
Fixpoint lookup (c : Cache) (key : VectorXf) : option spec_float :=
  match c with
  | [] => None
  | (k, v) :: c' => if key_equiv k key then Some v else lookup c' key
  end.

(** [results_cache[key] = result]: overwrite the value of the equivalent
    entry (its stored key object stays), or add a new entry. *)
Fixpoint assign (c : Cache) (key : VectorXf) (result : spec_float) : Cache :=
  match c with
  | [] => [(key, result)]
  | (k, v) :: c' =>
      if key_equiv k key then (k, result) :: c'
      else (k, v) :: assign c' key result
  end.

(** ** Parameter parsing (lines 65-83) *)

Definition parse_parameters (x dx : VectorXf) : VectorXf * VectorXf :=
  if (Nat.eqb (length x) 1 && Nat.ltb 0 (length dx))%bool then
    (repeat (nth 0 x S754_nan) (length dx), dx)
  else if (Nat.eqb (length dx) 1 && Nat.ltb 0 (length x))%bool then
    (x, repeat (nth 0 dx S754_nan) (length x))
  else (x, dx).

(** ** The neighbour lattice (lines 85-99) *)

(** Conversion to [size_t] and the implementation-defined (modular)
    conversion to [int]. *)
Definition to_size_t (z : Z) : Z := z mod 2 ^ 64.
Definition to_int (z : Z) : Z := (z + 2 ^ 31) mod 2 ^ 32 - 2 ^ 31.

(** [std::pow] on integer arguments, converted back to an integer type; exact
    while the power is below 2^53.  Theorems that depend on it assume
    [lattice_in_range], which keeps every converted value inside [int]. *)
Definition pow_int (b : Z) (e : nat) : Z := b ^ Z.of_nat e.

Definition sizeMg (search_range : Z) (d : nat) : nat :=
  Z.to_nat (pow_int (2 * search_range + 1) d).

Definition ranges (search_range : Z) (d : nat) : list Z :=
  map (fun j => pow_int (2 * search_range + 1) (d - j - 1)) (seq 0 d).

(** Line 96: [i % (ranges[j] * (2 * search_range + 1)) / ranges[j] -
    search_range], evaluated in [size_t] and stored in an [int]. *)
Definition searchRangeValue (i range search_range : Z) : Z :=
  to_int
    (to_size_t
       (to_size_t
          (to_size_t i mod to_size_t (range * (2 * search_range + 1)))
          / to_size_t range
        - to_size_t search_range)).

Definition dxArMg_row (dx : VectorXf) (search_range : Z) (i : nat) : VectorXf :=
  map (fun p => F32.mul (fst p)
                  (F32.of_int (searchRangeValue (Z.of_nat i) (snd p) search_range)))
      (combine dx (ranges search_range (length dx))).

Definition dxArMg (dx : VectorXf) (search_range : Z) : MatrixXf :=
  map (dxArMg_row dx search_range) (seq 0 (sizeMg search_range (length dx))).

(** ** Eigen primitives used by the loop *)

(** [off + x], coordinate by coordinate. *)
Definition add_row (off x : VectorXf) : VectorXf :=
  map (fun p => F32.add (fst p) (snd p)) (combine off x).

(** [dxArMg.rowwise() + x.transpose()]: every row plus [x].  Eigen asserts
    that [x] has as many coordinates as the matrix has columns; the loop
    below checks it. *)
Definition rowwise_add (m : MatrixXf) (x : VectorXf) : MatrixXf :=
  map (fun off => add_row off x) m.

(** [m.row(i)] for an [int] index: defined for [0 <= i < m.rows()] only. *)
Definition row (m : MatrixXf) (i : Z) : option VectorXf :=
  if i <? 0 then None else nth_error m (Z.to_nat i).

(** [internal::isMuchSmallerThan(x, y, prec)] on [float]:
    [abs(x) <= abs(y) * prec]. *)
Definition isMuchSmallerThan (x y p : spec_float) : bool :=
  F32.leb (F32.abs x) (F32.mul (F32.abs y) p).

(** [DenseBase::isZero(prec = dummy_precision())]: every coefficient is much
    smaller than 1.  This is Eigen's fuzzy test, true of every coefficient of
    magnitude at most [1e-5f], not only of zeros. *)
Definition isZero (v : VectorXf) : bool :=
  forallb (fun c => isMuchSmallerThan c (F32.of_int 1) F32.dummy_precision) v.

(** ** The optimiser state: the caller's cache, and a record of the points
    at which the objective was invoked (a ghost log, used to count calls). *)
Record State := mkState { results_cache : Cache; calls : list VectorXf }.

Inductive outcome :=
| Return (x : VectorXf)                  (* line 141 *)
| Throw_invalid_argument (what : string) (* line 139 *)
| Row_out_of_bounds                      (* line 128 with idxMin = -1 *)
| Size_mismatch.                         (* line 106 with x.size() != dx.size() *)

Section Minimizer.

(** [toString] renders the point through Eigen's stream operator. *)
Variable toString : VectorXf -> string.
(** The objective with its extra arguments applied; a pure function. *)
Variable fun_ : VectorXf -> spec_float.

(** Lines 111-121: [count(key) == 0] is a miss of [lookup]; on a hit
    [results_cache[key]] reads the stored value. *)
Definition evaluate (key : VectorXf) (st : State) : spec_float * State :=
  match lookup (results_cache st) key with
  | None =>
      let result := fun_ key in
      (result, {| results_cache := assign (results_cache st) key result;
                  calls := calls st ++ [key] |})
  | Some result => (result, st)
  end.

(** Lines 109-127: one left-to-right pass over the candidate rows, from row
    number [idx] on, keeping the smallest result so far and its index. *)
Fixpoint scan (xMg : MatrixXf) (idx : Z) (resMin : spec_float) (idxMin : Z)
    (st : State) : spec_float * Z * State :=
  match xMg with
  | [] => (resMin, idxMin, st)
  | key :: rest =>
      let (result, st') := evaluate key st in
      if F32.ltb result resMin
      then scan rest (idx + 1) result (to_int idx) st'
      else scan rest (idx + 1) resMin idxMin st'
  end.

(** Lines 105-127 for the current point [x].  The vector [resMg] of line 105
    is never read and is left out. *)
Definition select (dxAr : MatrixXf) (x : VectorXf) (st : State)
  : spec_float * Z * State :=
  scan (rowwise_add dxAr x) 0 F32.FLT_MAX (-1) st.

Definition what (x : VectorXf) : string :=
  ("maxiter reached without convergence (x = {" ++ toString x ++ "})")%string.

(** Lines 101-141: at most [n] iterations from [x]; [d] is the number of
    columns of [dxAr]. *)
Fixpoint descend (dxAr : MatrixXf) (d : nat) (n : nat) (x : VectorXf)
    (st : State) : outcome * State :=
  match n with
  | O => (Throw_invalid_argument (what x), st)
  | S n' =>
      if negb (Nat.eqb (length x) d) then (Size_mismatch, st)
      else
        let '(_, idxMin, st') := select dxAr x st in
        match row (rowwise_add dxAr x) idxMin, row dxAr idxMin with
        | Some x', Some off =>
            if isZero off then (Return x', st') else descend dxAr d n' x' st'
        | _, _ => (Row_out_of_bounds, st')
        end
  end.

(** Lines 27-142.  A [maxiter] that is not positive gives no iteration.
    [sizeMg] and [dxArMg] are what lines 85-99 compute for a search range
    and a step vector inside [lattice_in_range] (below); outside it the
    conversion of line 85 and the allocation of line 86 are not defined, or
    fail before the loop, and the lattice of the model has no counterpart. *)
Definition minimize_discrete_stepwise_cpp (x : VectorXf) (st : State)
    (dx : VectorXf) (search_range maxiter : Z) : outcome * State :=
  let (x', dx') := parse_parameters x dx in
  descend (dxArMg dx' search_range) (length dx') (Z.to_nat maxiter) x' st.

End Minimizer.

(** Lines 144-153: the objective is wrapped in a negation and handed to the
    minimiser together with the same cache. *)
Definition maximize_discrete_stepwise_cpp (toString : VectorXf -> string)
    (fun_ : VectorXf -> spec_float) (x : VectorXf) (st : State)
    (dx : VectorXf) (search_range maxiter : Z) : outcome * State :=
  minimize_discrete_stepwise_cpp toString (fun a => F32.neg (fun_ a))
    x st dx search_range maxiter.

(** * Specification vocabulary

    Definitions used to state the properties: the arguments for which the
    lattice construction stays inside [int], the lattice in the words of the
    specification, the two halves of the scan, and the invariants of the
    cache. *)

(** The arguments for which lines 85-99 stay inside [int]. *)
Definition lattice_in_range (search_range : Z) (d : nat) : Prop :=
  0 <= search_range /\ 2 * search_range + 1 < 2 ^ 31 /\
  (2 * search_range + 1) ^ Z.of_nat d < 2 ^ 31.

(** The search level of coordinate [j] at linear index [i], in the words of
    the specification: [(i mod (range_j * (2k+1))) / range_j - k] with
    [range_j = (2k+1)^(d-j-1)]. *)
Definition spec_level (k : Z) (d : nat) (i : nat) (j : nat) : Z :=
  let range_j := (2 * k + 1) ^ Z.of_nat (d - j - 1) in
  (Z.of_nat i mod (range_j * (2 * k + 1))) / range_j - k.

(** The index of the all-zero level, [((2k+1)^d - 1) / 2]. *)
Definition zero_index (k : Z) (d : nat) : Z := ((2 * k + 1) ^ Z.of_nat d - 1) / 2.

Definition all_zero (v : VectorXf) : bool := forallb F32.is_zero v.

(** Digit [m] of [i] in base [2k+1], written as line 96 computes it. *)
Definition digit (k : Z) (m : nat) (i : Z) : Z :=
  (i mod ((2 * k + 1) ^ Z.of_nat m * (2 * k + 1))) / (2 * k + 1) ^ Z.of_nat m.

(** A finite, nonzero binary32 number (with a canonical mantissa and
    exponent, as every binary32 value has). *)
Definition nonzero_binary32 (a : spec_float) : Prop :=
  F32.is_finite a = true /\ F32.is_zero a = false /\
  valid_binary F32.prec F32.emax a = true.

(** The exponent function of binary32: [fexp] at precision 24 and minimal
    exponent -149. *)
Definition fexp32 (e : Z) : Z := Z.max (e - 24) (-149).

(** A binary32 value of magnitude at least one, with an exponent no smaller
    than the minimal one. *)
Definition magnitude_ge_one (x : spec_float) : Prop :=
  match x with
  | S754_finite _ m e => -149 <= e /\ (0 <= e \/ 2 ^ (- e) <= Zpos m)
  | S754_infinity _ => True
  | _ => False
  end.

(** Neither a zero nor NaN. *)
Definition nonzero_number (x : spec_float) : Prop :=
  match x with
  | S754_finite _ _ _ | S754_infinity _ => True
  | _ => False
  end.

(** No nonzero multiple of a step, up to [k] steps, evaluates to zero. *)
Definition steps_nonvanishing (dx : VectorXf) (k : Z) : Prop :=
  forall a s, In a dx -> 1 <= Z.abs s <= k ->
    F32.is_zero (F32.mul a (F32.of_int s)) = false.

(** The value the optimiser sees at [key] through cache [c]. *)
Definition measured (fun_ : VectorXf -> spec_float) (c : Cache)
    (key : VectorXf) : spec_float :=
  match lookup c key with Some v => v | None => fun_ key end.

(** The results of a pass, in candidate order, and the state after it. *)
Fixpoint evaluate_all (fun_ : VectorXf -> spec_float) (keys : MatrixXf)
    (st : State) : list spec_float * State :=
  match keys with
  | [] => ([], st)
  | key :: rest =>
      let (result, st') := evaluate fun_ key st in
      let (results, st'') := evaluate_all fun_ rest st' in
      (result :: results, st'')
  end.

(** The selection of lines 122-126 on a list of results. *)
Fixpoint argmin (results : list spec_float) (idx : Z) (resMin : spec_float)
    (idxMin : Z) : spec_float * Z :=
  match results with
  | [] => (resMin, idxMin)
  | result :: rest =>
      if F32.ltb result resMin
      then argmin rest (idx + 1) result (to_int idx)
      else argmin rest (idx + 1) resMin idxMin
  end.

(** What lines 107-126 have established after scanning the results [l]:
    either nothing was below [FLT_MAX], or [im] is the first index of a
    smallest result [m]. *)
Definition argmin_inv (l : list spec_float) (m : spec_float) (im : Z) : Prop :=
  (im = -1 /\ m = F32.FLT_MAX /\
   forall i, (i < length l)%nat -> F32.ltb (nth i l S754_nan) F32.FLT_MAX = false)
  \/
  (0 <= im < Z.of_nat (length l) /\ nth (Z.to_nat im) l S754_nan = m /\
   F32.ltb m F32.FLT_MAX = true /\
   (forall i, (i < length l)%nat -> F32.ltb (nth i l S754_nan) m = false) /\
   (forall i, (i < Z.to_nat im)%nat -> F32.leb (nth i l S754_nan) m = false)).

(** [c'] is [c] with entries added behind it. *)
Definition extends (c c' : Cache) : Prop := exists added, c' = c ++ added.







(** The cache stores what [g] returned, and every key at which [g] was
    invoked maps to [g]'s value there. *)
Definition cache_of (g : VectorXf -> spec_float) (st : State) : Prop :=
  (forall key v, In (key, v) (results_cache st) -> v = g key) /\
  (forall key, In key (calls st) ->
     lookup (results_cache st) key = Some (g key)).

(** Every candidate is measured through the current cache as through
    [c0]. *)
Definition same_measure (fun_ : VectorXf -> spec_float) (c0 : Cache)
    (candidates : MatrixXf) (st : State) : Prop :=
  forall key, In key candidates ->
    measured fun_ (results_cache st) key = measured fun_ c0 key.

(** The point and state after [n] iterations none of which passed the
    convergence test or failed. *)
Fixpoint unconverged (fun_ : VectorXf -> spec_float) (dxAr : MatrixXf)
    (d : nat) (n : nat) (x : VectorXf) (st : State)
  : option (VectorXf * State) :=
  match n with
  | O => Some (x, st)
  | S n' =>
      if negb (Nat.eqb (length x) d) then None
      else
        let '(_, idxMin, st') := select fun_ dxAr x st in
        match row (rowwise_add dxAr x) idxMin, row dxAr idxMin with
        | Some x', Some off =>
            if isZero off then None else unconverged fun_ dxAr d n' x' st'
        | _, _ => None
        end
  end.

(** Equal up to the sign of a zero: what binary32 comparison cannot tell
    apart. *)
Definition zero_eq (a b : spec_float) : Prop :=
  a = b \/ (F32.is_zero a = true /\ F32.is_zero b = true).

(** A vector without NaN coordinates. *)
Definition no_nan (v : VectorXf) : Prop :=
  Forall (fun c => F32.is_nan c = false) v.

(** A vector all of whose coordinates are NaN. *)
Definition all_nan (v : VectorXf) : Prop :=
  Forall (fun c => F32.is_nan c = true) v.

(** All keys of a cache have [d] coordinates: the precondition under which
    the comparator's assertion never fires during a run of dimension [d]. *)
Definition cache_dim (d : nat) (c : Cache) : Prop :=
  Forall (fun e => length (fst e) = d) c.

(** ** The domain of the container

    [std::map] requires its comparator to be a strict weak ordering of the
    keys it is used on.  [EigenVectorXfCompare] is one on vectors of one
    size without NaN coordinates; it asserts on vectors of different sizes,
    and a NaN coordinate compares neither less nor greater than anything, so
    that with such a key in play the container's answers are not defined.
    The predicates below delimit the runs on which [lookup] is what the
    container computes. *)

Definition no_nanb (v : VectorXf) : bool :=
  forallb (fun c => negb (F32.is_nan c)) v.

(** Every key of the cache has [d] coordinates, none of them NaN. *)
Definition cache_in_domain (d : nat) (c : Cache) : bool :=
  forallb (fun e => Nat.eqb (length (fst e)) d && no_nanb (fst e)) c.

(** The keys presented to the container by at most [n] iterations from [x]
    (lines 109-113): the candidates of every iteration performed, in order.
    The recursion is that of [descend]. *)
Fixpoint presented (fun_ : VectorXf -> spec_float) (dxAr : MatrixXf)
    (d : nat) (n : nat) (x : VectorXf) (st : State) : list VectorXf :=
  match n with
  | O => []
  | S n' =>
      if negb (Nat.eqb (length x) d) then []
      else
        let '(_, idxMin, st') := select fun_ dxAr x st in
        rowwise_add dxAr x ++
        match row (rowwise_add dxAr x) idxMin, row dxAr idxMin with
        | Some x', Some off =>
            if isZero off then [] else presented fun_ dxAr d n' x' st'
        | _, _ => []
        end
  end.

(** The keys a call of the minimiser presents to the container. *)
Definition presented_by (fun_ : VectorXf -> spec_float) (x : VectorXf)
    (st : State) (dx : VectorXf) (search_range maxiter : Z) : list VectorXf :=
  let (x', dx') := parse_parameters x dx in
  presented fun_ (dxArMg dx' search_range) (length dx') (Z.to_nat maxiter)
    x' st.

(** A call of the minimiser inside the domain of the container: the keys of
    the cache passed in have the run's number of coordinates and no NaN, and
    no candidate presented during the run has a NaN coordinate. *)
Definition run_in_domain (fun_ : VectorXf -> spec_float) (x : VectorXf)
    (st : State) (dx : VectorXf) (search_range maxiter : Z) : bool :=
  cache_in_domain (length (snd (parse_parameters x dx))) (results_cache st)
  && forallb no_nanb (presented_by fun_ x st dx search_range maxiter).



(** In the state [st'] the objective was called [n] times more than in [st],
    and the cache has [n] entries more. *)
Definition grown_by (st st' : State) (n : nat) : Prop :=
  length (calls st') = (length (calls st) + n)%nat /\
  length (results_cache st') = (length (results_cache st) + n)%nat.

(** The value [m * 2^e] is at least [ma * 2^ea], in integers. *)
Definition value_ge (ma ea m e : Z) : Prop :=
  ma * 2 ^ (ea - Z.min ea e) <= m * 2 ^ (e - Z.min ea e).

(** A finite binary32 step whose magnitude exceeds the tolerance [1e-5f] of
    the convergence test. *)
Definition above_tolerance (a : spec_float) : Prop :=
  nonzero_binary32 a /\ F32.leb (F32.abs a) F32.dummy_precision = false.

(** ** Concrete binary32 values and objectives used in the examples *)

Definition f32_0_1 : spec_float := S754_finite false 13421773 (-27).
Definition f32_0_5 : spec_float := S754_finite false 8388608 (-24).
Definition f32_1_0 : spec_float := S754_finite false 8388608 (-23).
Definition f32_2_0 : spec_float := S754_finite false 8388608 (-22).
Definition f32_inf : spec_float := S754_infinity false.

(** The step [2^-20], about 9.5e-7. *)
Definition f32_tiny : spec_float := S754_finite false 8388608 (-43).

(** The objective [f(x) = x[0]]. *)
Definition coord0 (v : VectorXf) : spec_float := nth 0 v S754_nan.

(** The objective [f(x) = -x[0]]. *)
Definition neg_coord0 (v : VectorXf) : spec_float :=
  F32.neg (nth 0 v S754_nan).

(** [3.7f] and the objective [f(x) = (x[0] - 3.7)^2]. *)
Definition f32_3_7 : spec_float := S754_finite false 15518925 (-22).
Definition parabola (v : VectorXf) : spec_float :=
  let t := SFsub F32.prec F32.emax (nth 0 v S754_nan) f32_3_7 in F32.mul t t.

(** The objective [f(x) = x[0] * x[0]]. *)
Definition square0 (v : VectorXf) : spec_float :=
  F32.mul (nth 0 v S754_nan) (nth 0 v S754_nan).

(** * Properties *)

(** ** Order facts about binary32 comparison *)

Ltac cmp_cases :=
  repeat match goal with
  | H : context [Pos.compare_cont Eq ?a ?b] |- _ =>
      change (Pos.compare_cont Eq a b) with (Pos.compare a b) in H
  | |- context [Pos.compare_cont Eq ?a ?b] =>
      change (Pos.compare_cont Eq a b) with (Pos.compare a b)
  | H : context [Z.compare ?a ?b] |- _ => destruct (Z.compare_spec a b)
  | |- context [Z.compare ?a ?b] => destruct (Z.compare_spec a b)
  | H : context [Pos.compare ?a ?b] |- _ => destruct (Pos.compare_spec a b)
  | |- context [Pos.compare ?a ?b] => destruct (Pos.compare_spec a b)
  end.

Ltac float_order :=
  unfold F32.ltb, F32.leb, SFltb, SFleb, SFeqb, SFcompare in *;
  repeat match goal with
  | s : bool |- _ => destruct s
  end;
  simpl in *; try congruence;
  cmp_cases; simpl in *; try congruence; try lia.

Lemma ltb_irrefl (a : spec_float) : F32.ltb a a = false.
Proof. destruct a; float_order. Qed.

Lemma ltb_trans (a b c : spec_float) :
  F32.ltb a b = true -> F32.ltb b c = true -> F32.ltb a c = true.
Proof. destruct a, b, c; intros; float_order. Qed.

Lemma leb_ltb_trans (a b c : spec_float) :
  F32.leb a b = true -> F32.ltb b c = true -> F32.ltb a c = true.
Proof. destruct a, b, c; intros; float_order. Qed.



(** ** Rounding: a product with a nonzero integer does not underflow *)

Lemma digits2_pos_bounds (m : positive) :
  2 ^ (Zpos (digits2_pos m) - 1) <= Zpos m < 2 ^ Zpos (digits2_pos m).
Proof.
  induction m as [m IH|m IH|]; simpl digits2_pos.
  - rewrite Pos2Z.inj_succ.
    replace (Z.succ (Zpos (digits2_pos m)) - 1) with (Z.succ (Zpos (digits2_pos m) - 1)) by lia.
    rewrite !Z.pow_succ_r by lia. lia.
  - rewrite Pos2Z.inj_succ.
    replace (Z.succ (Zpos (digits2_pos m)) - 1) with (Z.succ (Zpos (digits2_pos m) - 1)) by lia.
    rewrite !Z.pow_succ_r by lia. lia.
  - simpl. lia.
Qed.

Lemma shr_1_m (m : Z) (r s : bool) :
  0 <= m -> shr_m (shr_1 (Build_shr_record m r s)) = m / 2.
Proof.
  intros Hm. destruct m as [|p|p]; try lia; simpl; auto.
  destruct p; simpl; auto.
  - rewrite Pos2Z.inj_xI. apply Z.div_unique with 1; lia.
  - rewrite Pos2Z.inj_xO. apply Z.div_unique with 0; lia.
Qed.

Lemma shr_1_record (mrs : shr_record) :
  0 <= shr_m mrs -> shr_m (shr_1 mrs) = shr_m mrs / 2.
Proof. destruct mrs as [m r s]. apply shr_1_m. Qed.

Lemma pow2_xI (p : positive) : 2 ^ Zpos p~1 = 2 * (2 ^ Zpos p * 2 ^ Zpos p).
Proof.
  replace (Zpos p~1) with (1 + (Zpos p + Zpos p)) by lia.
  rewrite !Z.pow_add_r by lia. reflexivity.
Qed.

Lemma pow2_xO (p : positive) : 2 ^ Zpos p~0 = 2 ^ Zpos p * 2 ^ Zpos p.
Proof.
  replace (Zpos p~0) with (Zpos p + Zpos p) by lia.
  rewrite !Z.pow_add_r by lia. reflexivity.
Qed.

Lemma iter_pos_shr_m (p : positive) (mrs : shr_record) :
  0 <= shr_m mrs ->
  shr_m (iter_pos shr_1 p mrs) = shr_m mrs / 2 ^ Zpos p.
Proof.
  revert mrs. induction p as [p IH|p IH|]; intros mrs Hm; simpl iter_pos.
  - assert (HP : 0 < 2 ^ Zpos p) by (apply Z.pow_pos_nonneg; lia).
    assert (H1 : 0 <= shr_m (shr_1 mrs))
      by (rewrite shr_1_record by auto; apply Z.div_pos; lia).
    assert (H2 : 0 <= shr_m (iter_pos shr_1 p (shr_1 mrs)))
      by (rewrite IH by auto; apply Z.div_pos; auto).
    rewrite IH, IH, shr_1_record, pow2_xI by auto.
    rewrite !Z.div_div by lia. reflexivity.
  - assert (HP : 0 < 2 ^ Zpos p) by (apply Z.pow_pos_nonneg; lia).
    assert (H2 : 0 <= shr_m (iter_pos shr_1 p mrs))
      by (rewrite IH by auto; apply Z.div_pos; auto).
    rewrite IH, IH, pow2_xO by auto.
    rewrite !Z.div_div by lia. reflexivity.
  - now rewrite shr_1_record.
Qed.

Lemma fexp32_eq (e : Z) : fexp 24 128 e = fexp32 e.
Proof. reflexivity. Qed.

Lemma Zdigits2_pos (m : Z) :
  0 < m -> 0 < Zdigits2 m /\ 2 ^ (Zdigits2 m - 1) <= m < 2 ^ Zdigits2 m.
Proof.
  destruct m as [|p|p]; try lia. intros _. simpl.
  split; [lia|apply digits2_pos_bounds].
Qed.

(** One shift stage of the rounding keeps a positive mantissa positive, and
    keeps the represented magnitude at least one. *)
Lemma shr_fexp_stage (m e : Z) :
  0 < m -> (-149 <= e \/ 2 ^ (-149 - e) <= m) ->
  0 < shr_m (fst (shr_fexp 24 128 m e loc_Exact)) /\
  -149 <= snd (shr_fexp 24 128 m e loc_Exact) /\
  ((0 <= e \/ 2 ^ (- e) <= m) ->
   0 <= snd (shr_fexp 24 128 m e loc_Exact) \/
   2 ^ (- snd (shr_fexp 24 128 m e loc_Exact))
   <= shr_m (fst (shr_fexp 24 128 m e loc_Exact))).
Proof.
  intros Hm Hlow. unfold shr_fexp. rewrite fexp32_eq. unfold fexp32.
  destruct (Zdigits2_pos m Hm) as (Hd & Hlo & Hhi).
  set (d := Zdigits2 m) in *.
  unfold shr, shr_record_of_loc.
  destruct (Z.max (d + e - 24) (-149) - e) as [|p|p] eqn:En; simpl fst; simpl snd;
    simpl shr_m.
  - repeat split; auto; lia.
  - rewrite iter_pos_shr_m by (simpl; lia). simpl shr_m.
    assert (HP : 0 < 2 ^ Zpos p) by (apply Z.pow_pos_nonneg; lia).
    assert (Hge : 1 <= m / 2 ^ Zpos p).
    { apply Z.div_le_lower_bound; auto. rewrite Z.mul_1_r.
      destruct (Z.max_spec (d + e - 24) (-149)) as [(_ & E)|(_ & E)];
        rewrite E in En.
      - destruct Hlow as [Hlow|Hlow]; [lia|].
        replace (Zpos p) with (-149 - e) by lia. assumption.
      - apply Z.le_trans with (2 ^ (d - 1)); auto.
        apply Z.pow_le_mono_r; lia. }
    repeat split; try lia.
    intros HQ.
    destruct (Z_le_gt_dec 0 (e + Zpos p)) as [|Hneg]; [left; assumption|right].
    destruct HQ as [HQ|HQ]; [lia|].
    apply Z.div_le_lower_bound; auto.
    rewrite Z.mul_comm, <- Z.pow_add_r by lia.
    replace (- (e + Zpos p) + Zpos p) with (- e) by lia. assumption.
  - repeat split; auto; lia.
Qed.

Lemma round_nearest_even_ge (m : Z) (l : location) :
  m <= round_nearest_even m l.
Proof.
  destruct l as [|[| |]]; simpl; try lia. destruct (Z.even m); lia.
Qed.

Lemma binary_round_aux_nonzero (sx : bool) (m : positive) (e : Z) :
  (-149 <= e \/ 2 ^ (-149 - e) <= Zpos m) ->
  nonzero_number (binary_round_aux 24 128 sx (Zpos m) e loc_Exact) /\
  ((0 <= e \/ 2 ^ (- e) <= Zpos m) ->
   magnitude_ge_one (binary_round_aux 24 128 sx (Zpos m) e loc_Exact)).
Proof.
  intros Hlow. unfold binary_round_aux.
  destruct (shr_fexp_stage (Zpos m) e ltac:(lia) Hlow) as (H1 & H2 & H3).
  destruct (shr_fexp 24 128 (Zpos m) e loc_Exact) as [mrs' e']. simpl in H1, H2, H3.
  pose proof (round_nearest_even_ge (shr_m mrs') (loc_of_shr_record mrs')) as Hr.
  set (m2 := round_nearest_even (shr_m mrs') (loc_of_shr_record mrs')) in *.
  destruct (shr_fexp_stage m2 e' ltac:(lia) (or_introl H2)) as (H4 & H5 & H6).
  destruct (shr_fexp 24 128 m2 e' loc_Exact) as [mrs'' e'']. simpl in H4, H5, H6.
  destruct (shr_m mrs'') as [|p|p] eqn:Em; try lia.
  destruct (e'' <=? 128 - 24); simpl; split; auto.
  intros HQ. split; auto. apply H6.
  destruct (H3 HQ) as [|]; [left; assumption|right; lia].
Qed.

Lemma Zpos_iter_xO (m d : positive) :
  Zpos (Pos.iter xO m d) = Zpos m * 2 ^ Zpos d.
Proof.
  rewrite <- Z.shiftl_mul_pow2 by lia. simpl.
  apply (Pos.iter_swap_gen _ _ Zpos xO (Z.mul 2)). reflexivity.
Qed.

Lemma binary_round_magnitude (sx : bool) (m : positive) :
  magnitude_ge_one (binary_round 24 128 sx m 0).
Proof.
  unfold binary_round, shl_align. rewrite fexp32_eq. unfold fexp32.
  destruct (Z.max (Zpos (digits2_pos m) + 0 - 24) (-149) - 0) as [|p|p] eqn:E.
  - apply binary_round_aux_nonzero; left; lia.
  - apply binary_round_aux_nonzero; left; lia.
  - apply binary_round_aux_nonzero; [left; lia|right].
    rewrite Zpos_iter_xO.
    replace (- Z.max (Zpos (digits2_pos m) + 0 - 24) (-149)) with (Zpos p) by lia.
    assert (0 < 2 ^ Zpos p) by (apply Z.pow_pos_nonneg; lia). nia.
Qed.

Lemma of_int_magnitude (s : Z) :
  s <> 0 -> magnitude_ge_one (F32.of_int s).
Proof.
  unfold F32.of_int.
  destruct s; simpl; intros; [congruence| |]; apply binary_round_magnitude.
Qed.

Lemma mul_nonzero (a b : spec_float) :
  match a with S754_finite _ _ e => -149 <= e | _ => False end ->
  magnitude_ge_one b ->
  nonzero_number (F32.mul a b).
Proof.
  destruct a as [| | |sa ma ea]; try contradiction. intros Ha.
  destruct b as [| | |sb mb eb]; try contradiction; simpl; auto.
  intros (Hb & HQ). apply binary_round_aux_nonzero.
  destruct (Z_le_gt_dec (-149) (ea + eb)) as [|Hlt]; [left; assumption|right].
  destruct HQ as [HQ|HQ]; [lia|].
  apply Z.le_trans with (2 ^ (- eb)).
  - apply Z.pow_le_mono_r; lia.
  - rewrite Pos2Z.inj_mul. nia.
Qed.

Lemma nonzero_binary32_exponent (a : spec_float) :
  nonzero_binary32 a ->
  match a with S754_finite _ _ e => -149 <= e | _ => False end.
Proof.
  intros (Hf & Hz & Hv). destruct a as [| | |s m e]; try discriminate.
  simpl in Hv. unfold bounded, canonical_mantissa in Hv.
  apply andb_prop in Hv. destruct Hv as (Hc & _).
  apply Z.eqb_eq in Hc. rewrite fexp32_eq in Hc. unfold fexp32 in Hc. lia.
Qed.

(** A nonzero step times a nonzero level is not zero: the product cannot
    underflow, because the level has magnitude at least one. *)
Lemma mul_of_int_nonzero (a : spec_float) (s : Z) :
  nonzero_binary32 a -> s <> 0 ->
  F32.is_zero (F32.mul a (F32.of_int s)) = false.
Proof.
  intros Ha Hs.
  pose proof (mul_nonzero a (F32.of_int s) (nonzero_binary32_exponent a Ha)
                (of_int_magnitude s Hs)) as H.
  destruct (F32.mul a (F32.of_int s)); simpl in *; auto; contradiction.
Qed.

(** ** The neighbour lattice *)

Section Digits.

Variable k : Z.
Hypothesis k_nonneg : 0 <= k.
Let B := 2 * k + 1.

Lemma pow_B_pos (m : nat) : 0 < B ^ Z.of_nat m.
Proof. apply Z.pow_pos_nonneg; subst B; lia. Qed.

Lemma pow_B_succ (m : nat) : B ^ Z.of_nat (S m) = B ^ Z.of_nat m * B.
Proof. rewrite Nat2Z.inj_succ, Z.pow_succ_r by lia. lia. Qed.

Lemma pow_B_odd (m : nat) : B ^ Z.of_nat m = 2 * zero_index k m + 1.
Proof.
  unfold zero_index. fold B.
  induction m as [|m IH].
  - reflexivity.
  - rewrite pow_B_succ.
    generalize dependent (B ^ Z.of_nat m). intros P IH.
    assert (E : P * B - 1 = (2 * ((P - 1) / 2 * k) + (P - 1) / 2 + k) * 2).
    { subst B. rewrite IH at 1. ring. }
    rewrite E, Z.div_mul by lia. lia.
Qed.

Lemma zero_index_succ (m : nat) :
  zero_index k (S m) = k * B ^ Z.of_nat m + zero_index k m.
Proof.
  pose proof (pow_B_odd (S m)) as H1. pose proof (pow_B_odd m) as H2.
  rewrite pow_B_succ in H1. subst B. nia.
Qed.

Lemma zero_index_bound (m : nat) : 0 <= zero_index k m < B ^ Z.of_nat m.
Proof.
  pose proof (pow_B_odd m). pose proof (pow_B_pos m). lia.
Qed.

Lemma digit_bound (m : nat) (i : Z) : 0 <= digit k m i < B.
Proof.
  unfold digit; fold B. pose proof (pow_B_pos m) as HP.
  assert (0 <= i mod (B ^ Z.of_nat m * B) < B ^ Z.of_nat m * B)
    by (apply Z.mod_pos_bound; subst B; nia).
  split.
  - apply Z.div_pos; lia.
  - apply Z.div_lt_upper_bound; lia.
Qed.

Lemma mod_pow_succ (m : nat) (i : Z) :
  i mod (B ^ Z.of_nat m * B) = i mod B ^ Z.of_nat m + B ^ Z.of_nat m * digit k m i.
Proof.
  pose proof (pow_B_pos m) as HP.
  assert (HB : 0 < B) by (subst B; lia).
  assert (E : i mod (B ^ Z.of_nat m * B)
              = i mod B ^ Z.of_nat m + B ^ Z.of_nat m * ((i / B ^ Z.of_nat m) mod B))
    by (apply Z.rem_mul_r; lia).
  assert (D : digit k m i = (i / B ^ Z.of_nat m) mod B).
  { unfold digit; fold B. rewrite E.
    replace (B ^ Z.of_nat m * ((i / B ^ Z.of_nat m) mod B))
      with ((i / B ^ Z.of_nat m) mod B * B ^ Z.of_nat m) by ring.
    rewrite Z.div_add by lia.
    rewrite (Z.div_small (i mod _)) by (apply Z.mod_pos_bound; lia).
    lia. }
  rewrite D. exact E.
Qed.

(** Every digit of [zero_index k d] below position [d] is [k]. *)
Lemma zero_index_mod (d m : nat) :
  (m <= d)%nat -> zero_index k d mod B ^ Z.of_nat m = zero_index k m.
Proof.
  intros Hmd. induction d as [|d IH].
  - assert (m = 0%nat) by lia. subst m. reflexivity.
  - destruct (Nat.eq_dec m (S d)) as [->|Hne].
    + apply Z.mod_small, zero_index_bound.
    + rewrite zero_index_succ.
      replace (Z.of_nat d) with (Z.of_nat (d - m) + Z.of_nat m) by lia.
      rewrite Z.pow_add_r, Z.mul_assoc by lia.
      rewrite Z.add_comm, Z.mod_add by (pose proof (pow_B_pos m); lia).
      apply IH. lia.
Qed.

Lemma digit_zero_index (d m : nat) :
  (m < d)%nat -> digit k m (zero_index k d) = k.
Proof.
  intros Hmd. unfold digit; fold B.
  rewrite <- pow_B_succ, zero_index_mod, zero_index_succ by lia.
  pose proof (pow_B_pos m). pose proof (zero_index_bound m).
  rewrite Z.add_comm, Z.div_add, Z.div_small by lia. lia.
Qed.

(** Conversely an index all of whose digits are [k] is [zero_index]. *)
Lemma digits_all_k (n : nat) (i : Z) :
  (forall m, (m < n)%nat -> digit k m i = k) ->
  i mod B ^ Z.of_nat n = zero_index k n.
Proof.
  induction n as [|n IH]; intros Hd.
  - simpl. apply Z.mod_1_r.
  - rewrite pow_B_succ, mod_pow_succ, IH, Hd, zero_index_succ by auto. lia.
Qed.

End Digits.

Lemma to_int_to_size_t (z : Z) :
  - 2 ^ 31 <= z < 2 ^ 31 -> to_int (to_size_t z) = z.
Proof.
  unfold to_int, to_size_t.
  change (2 ^ 64) with 18446744073709551616.
  change (2 ^ 32) with 4294967296. change (2 ^ 31) with 2147483648.
  intros Hz. Z.div_mod_to_equations. lia.
Qed.

Lemma to_size_t_small (z : Z) : 0 <= z < 2 ^ 31 -> to_size_t z = z.
Proof.
  intros Hz. apply Z.mod_small.
  change (2 ^ 64) with 18446744073709551616.
  change (2 ^ 31) with 2147483648 in Hz. lia.
Qed.

Lemma pow_le_lattice (k : Z) (d m : nat) :
  0 <= k -> (m <= d)%nat ->
  0 < (2 * k + 1) ^ Z.of_nat m <= (2 * k + 1) ^ Z.of_nat d.
Proof.
  intros Hk Hm. split.
  - apply Z.pow_pos_nonneg; lia.
  - apply Z.pow_le_mono_r; lia.
Qed.

(** Inside the [int] range the wrap-around of line 96 cancels: the stored
    level is the digit of [i] minus [k], which is the specification's
    formula. *)
Lemma searchRangeValue_level (k : Z) (d i j : nat) :
  lattice_in_range k d -> (j < d)%nat -> (i < sizeMg k d)%nat ->
  searchRangeValue (Z.of_nat i) (pow_int (2 * k + 1) (d - j - 1)) k
  = spec_level k d i j.
Proof.
  intros (Hk & HB & Hd) Hj Hi.
  unfold sizeMg, pow_int in *. unfold searchRangeValue, spec_level.
  pose proof (pow_le_lattice k d (d - j - 1) Hk ltac:(lia)) as Hr.
  pose proof (pow_le_lattice k d (S (d - j - 1)) Hk ltac:(lia)) as Hr'.
  rewrite (pow_B_succ k) in Hr'.
  pose proof (digit_bound k Hk (d - j - 1) (Z.of_nat i)) as Hq.
  unfold digit in Hq.
  set (r := (2 * k + 1) ^ Z.of_nat (d - j - 1)) in *.
  rewrite (to_size_t_small (Z.of_nat i)) by lia.
  rewrite (to_size_t_small (r * (2 * k + 1))) by lia.
  rewrite (to_size_t_small r) by nia.
  rewrite (to_size_t_small k) by lia.
  set (q := Z.of_nat i mod (r * (2 * k + 1))) in *.
  assert (Hq0 : 0 <= q < r * (2 * k + 1)) by (apply Z.mod_pos_bound; lia).
  rewrite (to_size_t_small q) by lia.
  apply to_int_to_size_t. lia.
Qed.

Lemma spec_level_digit (k : Z) (d i j : nat) :
  spec_level k d i j = digit k (d - j - 1) (Z.of_nat i) - k.
Proof. reflexivity. Qed.

Lemma length_ranges (k : Z) (d : nat) : length (ranges k d) = d.
Proof. unfold ranges. now rewrite length_map, length_seq. Qed.

Lemma nth_ranges (k : Z) (d j : nat) :
  (j < d)%nat -> nth j (ranges k d) 0 = pow_int (2 * k + 1) (d - j - 1).
Proof.
  intros Hj. unfold ranges.
  set (g := fun j => pow_int (2 * k + 1) (d - j - 1)).
  rewrite (nth_indep _ 0 (g 0%nat)) by now rewrite length_map, length_seq.
  rewrite map_nth, seq_nth by assumption. reflexivity.
Qed.

Lemma length_dxArMg_row (dx : VectorXf) (k : Z) (i : nat) :
  length (dxArMg_row dx k i) = length dx.
Proof.
  unfold dxArMg_row. rewrite length_map, length_combine, length_ranges. lia.
Qed.

Lemma nth_dxArMg_row (dx : VectorXf) (k : Z) (i j : nat) :
  (j < length dx)%nat ->
  nth j (dxArMg_row dx k i) S754_nan
  = F32.mul (nth j dx S754_nan)
      (F32.of_int (searchRangeValue (Z.of_nat i)
                     (pow_int (2 * k + 1) (length dx - j - 1)) k)).
Proof.
  intros Hj. unfold dxArMg_row.
  set (g := fun p : spec_float * Z =>
              F32.mul (fst p) (F32.of_int (searchRangeValue (Z.of_nat i) (snd p) k))).
  rewrite (nth_indep _ S754_nan (g (S754_nan, 0)))
    by (rewrite length_map, length_combine, length_ranges; lia).
  rewrite map_nth, combine_nth by now rewrite length_ranges.
  unfold g; simpl. now rewrite nth_ranges.
Qed.

Lemma length_dxArMg (dx : VectorXf) (k : Z) :
  length (dxArMg dx k) = sizeMg k (length dx).
Proof. unfold dxArMg. now rewrite length_map, length_seq. Qed.

Lemma length_dxArMg_pow (dx : VectorXf) (k : Z) :
  0 <= k ->
  Z.of_nat (length (dxArMg dx k)) = (2 * k + 1) ^ Z.of_nat (length dx).
Proof.
  intros Hk. rewrite length_dxArMg. unfold sizeMg, pow_int.
  apply Z2Nat.id. pose proof (pow_B_pos k Hk (length dx)). lia.
Qed.

Lemma nth_dxArMg (dx : VectorXf) (k : Z) (i : nat) :
  (i < sizeMg k (length dx))%nat ->
  nth i (dxArMg dx k) [] = dxArMg_row dx k i.
Proof.
  intros Hi. unfold dxArMg.
  rewrite (nth_indep _ [] (dxArMg_row dx k 0))
    by now rewrite length_map, length_seq.
  now rewrite map_nth, seq_nth.
Qed.

Lemma zero_index_lt_sizeMg (k : Z) (d : nat) :
  0 <= k -> (Z.to_nat (zero_index k d) < sizeMg k d)%nat.
Proof.
  intros Hk. unfold sizeMg, pow_int.
  pose proof (zero_index_bound k Hk d). lia.
Qed.

Lemma spec_level_zero_index (k : Z) (d j : nat) :
  0 <= k -> (j < d)%nat -> spec_level k d (Z.to_nat (zero_index k d)) j = 0.
Proof.
  intros Hk Hj. rewrite spec_level_digit.
  pose proof (zero_index_bound k Hk d).
  rewrite Z2Nat.id, digit_zero_index by lia. lia.
Qed.

Lemma spec_level_zero_unique (k : Z) (d i : nat) :
  0 <= k -> (i < sizeMg k d)%nat ->
  (forall j, (j < d)%nat -> spec_level k d i j = 0) ->
  Z.of_nat i = zero_index k d.
Proof.
  intros Hk Hi Hz. unfold sizeMg, pow_int in Hi.
  rewrite <- (digits_all_k k Hk d (Z.of_nat i)).
  - symmetry. apply Z.mod_small. lia.
  - intros m Hm. specialize (Hz (d - m - 1)%nat ltac:(lia)).
    rewrite spec_level_digit in Hz.
    replace (d - (d - m - 1) - 1)%nat with m in Hz by lia. lia.
Qed.

Lemma spec_level_bound (k : Z) (d i j : nat) :
  0 <= k -> - k <= spec_level k d i j <= k.
Proof.
  intros Hk. rewrite spec_level_digit.
  pose proof (digit_bound k Hk (d - j - 1) (Z.of_nat i)). lia.
Qed.

Lemma mul_zero_level (a : spec_float) :
  F32.is_finite a = true -> F32.is_zero (F32.mul a (F32.of_int 0)) = true.
Proof. destruct a; simpl; intros; congruence. Qed.

Lemma all_zero_nth (v : VectorXf) :
  all_zero v = true <->
  (forall j, (j < length v)%nat -> F32.is_zero (nth j v S754_nan) = true).
Proof.
  unfold all_zero. rewrite forallb_forall. split.
  - intros H j Hj. apply H, nth_In, Hj.
  - intros H a Ha. destruct (In_nth _ _ S754_nan Ha) as (j & Hj & <-). auto.
Qed.

(** The row of the all-zero level consists of zeros when the steps are
    finite. *)
Lemma all_zero_zero_index (dx : VectorXf) (k : Z) :
  lattice_in_range k (length dx) ->
  Forall (fun a => F32.is_finite a = true) dx ->
  all_zero (dxArMg_row dx k (Z.to_nat (zero_index k (length dx)))) = true.
Proof.
  intros HR Hfin. pose proof HR as (Hk & _).
  apply all_zero_nth. intros j Hj. rewrite length_dxArMg_row in Hj.
  rewrite nth_dxArMg_row, searchRangeValue_level, spec_level_zero_index
    by auto using zero_index_lt_sizeMg.
  apply mul_zero_level.
  rewrite Forall_forall in Hfin. apply Hfin, nth_In, Hj.
Qed.

Lemma nonzero_steps_nonvanishing (dx : VectorXf) (k : Z) :
  Forall nonzero_binary32 dx -> steps_nonvanishing dx k.
Proof.
  intros H a s Ha Hs. rewrite Forall_forall in H.
  apply mul_of_int_nonzero; [auto|lia].
Qed.

Lemma all_zero_row_unique (dx : VectorXf) (k : Z) (i : nat) :
  lattice_in_range k (length dx) -> steps_nonvanishing dx k ->
  (i < sizeMg k (length dx))%nat ->
  all_zero (dxArMg_row dx k i) = true ->
  i = Z.to_nat (zero_index k (length dx)).
Proof.
  intros HR Hnv Hi Hz. pose proof HR as (Hk & _).
  rewrite all_zero_nth in Hz.
  enough (Z.of_nat i = zero_index k (length dx)) by lia.
  apply spec_level_zero_unique; auto.
  intros j Hj. specialize (Hz j). rewrite length_dxArMg_row in Hz.
  specialize (Hz Hj).
  rewrite nth_dxArMg_row, searchRangeValue_level in Hz by auto.
  pose proof (spec_level_bound k (length dx) i j Hk) as Hb.
  destruct (Z.eq_dec (spec_level k (length dx) i j) 0) as [E|E]; auto.
  rewrite Hnv in Hz; [discriminate | now apply nth_In | lia].
Qed.

Lemma filter_map_none {A B : Type} (P : B -> bool) (f : A -> B) (l : list A) :
  (forall a, In a l -> P (f a) = false) -> filter P (map f l) = [].
Proof.
  induction l as [|a l IH]; simpl; intros H; auto.
  rewrite (H a) by auto. apply IH. auto.
Qed.

Lemma filter_map_seq_unique {B : Type} (P : B -> bool) (f : nat -> B)
    (n i0 : nat) :
  (i0 < n)%nat -> P (f i0) = true ->
  (forall i, (i < n)%nat -> i <> i0 -> P (f i) = false) ->
  filter P (map f (seq 0 n)) = [f i0].
Proof.
  intros Hi0 Ht Hf.
  replace n with (i0 + (1 + (n - i0 - 1)))%nat by lia.
  rewrite !seq_app, !map_app, !filter_app. simpl. rewrite Ht.
  rewrite !filter_map_none; auto.
  - intros a Ha. apply in_seq in Ha. apply Hf; lia.
  - intros a Ha. apply in_seq in Ha. apply Hf; lia.
Qed.

(** ** The cache *)

Lemma Compare_irrefl (a : VectorXf) : EigenVectorXfCompare a a = false.
Proof.
  induction a as [|x a IH]; simpl; auto. now rewrite ltb_irrefl.
Qed.

Lemma key_equiv_refl (a : VectorXf) : key_equiv a a = true.
Proof. unfold key_equiv. now rewrite Compare_irrefl. Qed.


Lemma lookup_app (c c' : Cache) (key : VectorXf) :
  lookup (c ++ c') key
  = match lookup c key with Some v => Some v | None => lookup c' key end.
Proof.
  induction c as [|[k v] c IH]; simpl; auto.
  destruct (key_equiv k key); auto.
Qed.



(** On a miss, assignment appends the new entry. *)
Lemma assign_miss (c : Cache) (key : VectorXf) (v : spec_float) :
  lookup c key = None -> assign c key v = c ++ [(key, v)].
Proof.
  induction c as [|[k w] c IH]; simpl; auto.
  destruct (key_equiv k key); [discriminate|].
  intros H. now rewrite IH.
Qed.

(** ** One evaluation, and a pass over all candidates *)

Section Pass.

Variable fun_ : VectorXf -> spec_float.

Lemma scan_evaluate_all (keys : MatrixXf) (idx : Z) (resMin : spec_float)
    (idxMin : Z) (st : State) :
  scan fun_ keys idx resMin idxMin st
  = (argmin (fst (evaluate_all fun_ keys st)) idx resMin idxMin,
     snd (evaluate_all fun_ keys st)).
Proof.
  revert idx resMin idxMin st.
  induction keys as [|key rest IH]; intros; simpl; auto.
  destruct (evaluate fun_ key st) as [result st'].
  destruct (evaluate_all fun_ rest st') as [results st''] eqn:E; simpl.
  destruct (F32.ltb result resMin); rewrite IH, E; reflexivity.
Qed.

Lemma evaluate_result (key : VectorXf) (st : State) :
  fst (evaluate fun_ key st) = measured fun_ (results_cache st) key.
Proof. unfold evaluate, measured. destruct (lookup _ _); reflexivity. Qed.

Lemma evaluate_cache (key : VectorXf) (st : State) :
  results_cache (snd (evaluate fun_ key st))
  = match lookup (results_cache st) key with
    | Some _ => results_cache st
    | None => results_cache st ++ [(key, fun_ key)]
    end.
Proof.
  unfold evaluate. destruct (lookup _ _) eqn:E; simpl; auto using assign_miss.
Qed.

Lemma evaluate_calls (key : VectorXf) (st : State) :
  calls (snd (evaluate fun_ key st))
  = match lookup (results_cache st) key with
    | Some _ => calls st
    | None => calls st ++ [key]
    end.
Proof. unfold evaluate. destruct (lookup _ _); reflexivity. Qed.

(** After an evaluation the cache holds the result under [key]. *)
Lemma evaluate_stored (key : VectorXf) (st : State) :
  lookup (results_cache (snd (evaluate fun_ key st))) key
  = Some (fst (evaluate fun_ key st)).
Proof.
  rewrite evaluate_cache, evaluate_result. unfold measured.
  destruct (lookup (results_cache st) key) eqn:E; auto.
  rewrite lookup_app, E. simpl. now rewrite key_equiv_refl.
Qed.

Lemma length_evaluate_all (keys : MatrixXf) (st : State) :
  length (fst (evaluate_all fun_ keys st)) = length keys.
Proof.
  revert st. induction keys as [|key rest IH]; intros; simpl; auto.
  destruct (evaluate fun_ key st) as [r st'].
  specialize (IH st'). destruct (evaluate_all fun_ rest st'). simpl in *. lia.
Qed.

End Pass.

(** ** Selection of the first strict minimum *)

Lemma to_int_small (z : Z) : 0 <= z < 2 ^ 31 -> to_int z = z.
Proof.
  unfold to_int. change (2 ^ 32) with 4294967296.
  change (2 ^ 31) with 2147483648.
  intros Hz. Z.div_mod_to_equations. lia.
Qed.

Lemma nth_snoc_cases (l : list spec_float) (r : spec_float) (i : nat) :
  (i < length (l ++ [r]))%nat ->
  (i < length l)%nat /\ nth i (l ++ [r]) S754_nan = nth i l S754_nan
  \/ i = length l /\ nth i (l ++ [r]) S754_nan = r.
Proof.
  rewrite length_app; simpl; intros Hi.
  destruct (Nat.eq_dec i (length l)) as [->|Hne].
  - right. split; auto. now rewrite nth_middle.
  - left. split; [lia|]. apply app_nth1. lia.
Qed.

Lemma argmin_inv_step (l : list spec_float) (m r : spec_float) (im : Z) :
  argmin_inv l m im -> Z.of_nat (length l) < 2 ^ 31 ->
  argmin_inv (l ++ [r])
    (if F32.ltb r m then r else m)
    (if F32.ltb r m then to_int (Z.of_nat (length l)) else im).
Proof.
  intros Hinv Hlen.
  pose proof (length_app l [r]) as HL; simpl in HL.
  destruct (F32.ltb r m) eqn:Hrm.
  - rewrite to_int_small by lia. right.
    assert (Hmax : F32.ltb r F32.FLT_MAX = true).
    { destruct Hinv as [(_ & -> & _)|(_ & _ & Hm & _)]; eauto using ltb_trans. }
    assert (Hold : forall i, (i < length l)%nat ->
                     F32.ltb (nth i l S754_nan) m = false).
    { destruct Hinv as [(_ & -> & H)|(_ & _ & _ & H & _)]; auto. }
    rewrite Nat2Z.id. repeat split; try lia.
    + now rewrite nth_middle.
    + assumption.
    + intros i Hi.
      destruct (nth_snoc_cases l r i Hi) as [(Hi' & ->)|(_ & ->)].
      * destruct (F32.ltb (nth i l S754_nan) r) eqn:E; auto.
        rewrite <- (Hold i Hi'). symmetry. eauto using ltb_trans.
      * apply ltb_irrefl.
    + intros i Hi. rewrite app_nth1 by lia.
      destruct (F32.leb (nth i l S754_nan) r) eqn:E; auto.
      rewrite <- (Hold i Hi). symmetry. eauto using leb_ltb_trans.
  - destruct Hinv as [(-> & -> & H)|(Hb & Hn & Hm & Hall & Hfirst)];
      [left|right]; repeat split; auto; try lia.
    + intros i Hi.
      destruct (nth_snoc_cases l r i Hi) as [(Hi' & ->)|(_ & ->)]; auto.
    + rewrite app_nth1 by lia. assumption.
    + intros i Hi.
      destruct (nth_snoc_cases l r i Hi) as [(Hi' & ->)|(_ & ->)]; auto.
    + intros i Hi. rewrite app_nth1 by lia. auto.
Qed.

Lemma argmin_inv_run (rs l : list spec_float) (m : spec_float) (im : Z) :
  argmin_inv l m im -> Z.of_nat (length (l ++ rs)) < 2 ^ 31 ->
  argmin_inv (l ++ rs)
    (fst (argmin rs (Z.of_nat (length l)) m im))
    (snd (argmin rs (Z.of_nat (length l)) m im)).
Proof.
  revert l m im. induction rs as [|r rs IH]; intros l m im Hinv Hlen.
  - simpl. now rewrite app_nil_r.
  - rewrite length_app in Hlen; simpl in Hlen.
    pose proof (argmin_inv_step l m r im Hinv ltac:(lia)) as Hstep.
    replace (l ++ r :: rs) with ((l ++ [r]) ++ rs) by now rewrite <- app_assoc.
    simpl.
    replace (Z.of_nat (length l) + 1) with (Z.of_nat (length (l ++ [r])))
      by (rewrite length_app; simpl; lia).
    destruct (F32.ltb r m); apply IH; auto;
      rewrite !length_app; simpl; lia.
Qed.

(** The selection started as the source starts it. *)
Lemma argmin_inv_start (rs : list spec_float) :
  Z.of_nat (length rs) < 2 ^ 31 ->
  argmin_inv rs (fst (argmin rs 0 F32.FLT_MAX (-1)))
                (snd (argmin rs 0 F32.FLT_MAX (-1))).
Proof.
  intros Hlen. apply (argmin_inv_run rs [] F32.FLT_MAX (-1)); auto.
  left. repeat split; auto. simpl. intros i Hi. lia.
Qed.

(** ** Properties of the state that every run preserves *)

Lemma extends_refl (c : Cache) : extends c c.
Proof. exists []. now rewrite app_nil_r. Qed.

Lemma extends_trans (c1 c2 c3 : Cache) :
  extends c1 c2 -> extends c2 c3 -> extends c1 c3.
Proof.
  intros [a ->] [b ->]. exists (a ++ b). now rewrite app_assoc.
Qed.

Lemma extends_lookup (c c' : Cache) (key : VectorXf) (v : spec_float) :
  extends c c' -> lookup c key = Some v -> lookup c' key = Some v.
Proof. intros [a ->] H. now rewrite lookup_app, H. Qed.


Lemma extends_In (c c' : Cache) (e : VectorXf * spec_float) :
  extends c c' -> In e c -> In e c'.
Proof. intros [a ->] H. apply in_or_app. auto. Qed.

Lemma evaluate_extends (fun_ : VectorXf -> spec_float) (key : VectorXf)
    (st : State) :
  extends (results_cache st) (results_cache (snd (evaluate fun_ key st))).
Proof.
  rewrite evaluate_cache. destruct (lookup _ _).
  - apply extends_refl.
  - eexists; reflexivity.
Qed.

Section Preservation.

Variable toString : VectorXf -> string.
Variable fun_ : VectorXf -> spec_float.
Variable P : State -> Prop.
Hypothesis P_evaluate :
  forall key st, P st -> P (snd (evaluate fun_ key st)).

Lemma evaluate_all_preserves (keys : MatrixXf) (st : State) :
  P st -> P (snd (evaluate_all fun_ keys st)).
Proof.
  revert st. induction keys as [|key rest IH]; intros st H; simpl; auto.
  pose proof (P_evaluate key st H) as H'.
  destruct (evaluate fun_ key st) as [r st']. simpl in H'.
  specialize (IH st' H'). destruct (evaluate_all fun_ rest st'). exact IH.
Qed.

Lemma select_state (dxAr : MatrixXf) (x : VectorXf) (st : State) :
  snd (select fun_ dxAr x st)
  = snd (evaluate_all fun_ (rowwise_add dxAr x) st).
Proof. unfold select. now rewrite scan_evaluate_all. Qed.

Lemma select_preserves (dxAr : MatrixXf) (x : VectorXf) (st : State) :
  P st -> P (snd (select fun_ dxAr x st)).
Proof. rewrite select_state. apply evaluate_all_preserves. Qed.

Lemma descend_preserves (dxAr : MatrixXf) (d n : nat) (x : VectorXf)
    (st : State) :
  P st -> P (snd (descend toString fun_ dxAr d n x st)).
Proof.
  revert x st. induction n as [|n IH]; intros x st H; simpl; auto.
  destruct (negb (length x =? d)%nat); auto.
  pose proof (select_preserves dxAr x st H) as H'.
  destruct (select fun_ dxAr x st) as [[m im] st']. simpl in H'.
  destruct (row (rowwise_add dxAr x) im); auto.
  destruct (row dxAr im); auto.
  destruct (isZero v0); auto.
Qed.

Lemma minimize_preserves (x : VectorXf) (st : State) (dx : VectorXf)
    (search_range maxiter : Z) :
  P st ->
  P (snd (minimize_discrete_stepwise_cpp toString fun_ x st dx
            search_range maxiter)).
Proof.
  unfold minimize_discrete_stepwise_cpp.
  destruct (parse_parameters x dx). apply descend_preserves.
Qed.

End Preservation.

(** ** Sequences of optimiser calls on one cache *)






(** ** Memoisation: the cache and the number of objective calls *)

(** C9.  Across a minimise or a maximise call, whatever its outcome, the
    cache after the call is the cache before it with entries added behind:
    every entry is still there, and every key that had a value still has that
    value. *)
Theorem cache_only_grows (toString : VectorXf -> string)
    (f : VectorXf -> spec_float) (x : VectorXf) (st : State) (dx : VectorXf)
    (search_range maxiter : Z) :
  let grows (st' : State) :=
    extends (results_cache st) (results_cache st') /\
    (forall e, In e (results_cache st) -> In e (results_cache st')) /\
    (forall key v, lookup (results_cache st) key = Some v ->
                   lookup (results_cache st') key = Some v) in
  grows (snd (minimize_discrete_stepwise_cpp toString f x st dx
                search_range maxiter))
  /\
  grows (snd (maximize_discrete_stepwise_cpp toString f x st dx
                search_range maxiter)).
Proof.
  intros grows.
  assert (G : forall st', extends (results_cache st) (results_cache st') ->
                          grows st').
  { intros st' H. unfold grows. eauto using extends_In, extends_lookup. }
  split; apply G; unfold maximize_discrete_stepwise_cpp;
    apply minimize_preserves with (P := fun s => extends (results_cache st) (results_cache s));
    auto using extends_refl;
    intros key s H; eapply extends_trans; eauto using evaluate_extends.
Qed.

(** ** The maximisation adapter *)

Lemma cache_of_evaluate (g : VectorXf -> spec_float) (key : VectorXf)
    (st : State) :
  cache_of g st -> cache_of g (snd (evaluate g key st)).
Proof.
  intros (Hc & Hl). unfold cache_of.
  rewrite evaluate_cache, evaluate_calls.
  destruct (lookup (results_cache st) key) eqn:E; [now split|].
  split.
  - intros k v H. apply in_app_or in H. destruct H as [H|[[= <- <-]|[]]]; auto.
  - intros k H. apply in_app_or in H. rewrite lookup_app.
    destruct H as [H|[<-|[]]].
    + now rewrite (Hl k H).
    + rewrite E. simpl. now rewrite key_equiv_refl.
Qed.

(** ** Parameter parsing *)

(** C7.  A one-coordinate point with a non-empty step vector is replaced by
    that scalar repeated to the step vector's length; a one-coordinate step
    vector with a non-empty point is repeated to the point's length; and the
    two examples of the specification. *)
Theorem parse_parameters_broadcast :
  (forall x dx, length x = 1%nat -> (0 < length dx)%nat ->
     parse_parameters x dx = (repeat (nth 0 x S754_nan) (length dx), dx)) /\
  (forall x dx, length dx = 1%nat -> (0 < length x)%nat ->
     snd (parse_parameters x dx) = repeat (nth 0 dx S754_nan) (length x) /\
     length (fst (parse_parameters x dx)) = length x) /\
  parse_parameters [f32_2_0] [f32_0_5; f32_0_5; f32_0_5]
  = ([f32_2_0; f32_2_0; f32_2_0], [f32_0_5; f32_0_5; f32_0_5]) /\
  parse_parameters [f32_1_0; f32_2_0] [f32_0_1]
  = ([f32_1_0; f32_2_0], [f32_0_1; f32_0_1]).
Proof.
  split; [|split; [|split; reflexivity]].
  - intros x dx Hx Hdx. unfold parse_parameters. rewrite Hx.
    destruct (length dx); [lia|]. reflexivity.
  - intros x dx Hdx Hx. unfold parse_parameters. rewrite Hdx.
    destruct (Nat.eqb_spec (length x) 1) as [E|E]; simpl.
    + rewrite E. destruct dx as [|a [|b dx]]; try discriminate. simpl. auto.
    + destruct (length x) eqn:L; [lia|]. simpl. auto.
Qed.

(** ** The enumeration of the lattice *)

(** C6 as stated fails for a zero step: with [dx = [0]] and [k = 1] the three
    offset rows are [-0], [+0], [+0], so the all-zero vector occurs three
    times. *)
Lemma zero_step_repeats_zero_offset :
  lattice_in_range 1 1 /\
  dxArMg [S754_zero false] 1
  = [[S754_zero true]; [S754_zero false]; [S754_zero false]] /\
  length (filter all_zero (dxArMg [S754_zero false] 1)) = 3%nat.
Proof.
  split; [|split; reflexivity].
  unfold lattice_in_range. simpl. lia.
Qed.

(** C6, amended.  Inside the [int] range the lattice has exactly [(2k+1)^d]
    rows; coordinate [j] of row [i] is [dx[j]] times the level
    [(i mod (range_j * (2k+1))) / range_j - k]; the all-zero level occurs at
    exactly one index, [((2k+1)^d - 1) / 2], whose row is all-zero when the
    steps are finite; and when every step is a nonzero finite number, that
    row is the only all-zero row of the lattice. *)
Theorem lattice_enumeration (dx : VectorXf) (k : Z) :
  lattice_in_range k (length dx) ->
  let d := length dx in
  let i0 := Z.to_nat (zero_index k d) in
  Z.of_nat (length (dxArMg dx k)) = (2 * k + 1) ^ Z.of_nat d /\
  (forall i j, (i < length (dxArMg dx k))%nat -> (j < d)%nat ->
     nth j (nth i (dxArMg dx k) []) S754_nan
     = F32.mul (nth j dx S754_nan) (F32.of_int (spec_level k d i j))) /\
  ((i0 < length (dxArMg dx k))%nat /\
   forall i, (i < length (dxArMg dx k))%nat ->
     ((forall j, (j < d)%nat -> spec_level k d i j = 0) <-> i = i0)) /\
  (Forall (fun a => F32.is_finite a = true) dx ->
     all_zero (nth i0 (dxArMg dx k) []) = true) /\
  (Forall nonzero_binary32 dx ->
     filter all_zero (dxArMg dx k) = [nth i0 (dxArMg dx k) []]).
Proof.
  intros HR d i0. pose proof HR as (Hk & _ & _).
  rewrite length_dxArMg.
  pose proof (zero_index_lt_sizeMg k d Hk) as Hi0. fold i0 in Hi0.
  split; [|split; [|split; [|split]]].
  - rewrite <- length_dxArMg. now apply length_dxArMg_pow.
  - intros i j Hi Hj.
    rewrite nth_dxArMg, nth_dxArMg_row, searchRangeValue_level by auto.
    reflexivity.
  - split; auto. intros i Hi. split.
    + intros Hz. apply Nat2Z.inj. subst i0.
      rewrite (spec_level_zero_unique k d i) by auto.
      pose proof (zero_index_bound k Hk d). lia.
    + intros -> j Hj. now apply spec_level_zero_index.
  - intros Hfin. rewrite nth_dxArMg by auto. now apply all_zero_zero_index.
  - intros Hnz. rewrite nth_dxArMg by auto.
    assert (Hfin : Forall (fun a => F32.is_finite a = true) dx)
      by (eapply Forall_impl; [|exact Hnz]; intros a (H & _); exact H).
    unfold dxArMg. apply filter_map_seq_unique; auto.
    + now apply all_zero_zero_index.
    + intros i Hi Hne.
      destruct (all_zero (dxArMg_row dx k i)) eqn:E; auto.
      apply all_zero_row_unique in E;
        auto using nonzero_steps_nonvanishing. contradiction.
Qed.

Lemma lattice_enumeration_witness :
  let dx := [f32_1_0; f32_0_5] in
  lattice_in_range 1 (length dx) /\
  Z.of_nat (length (dxArMg dx 1)) = 9 /\
  nth 1 (nth 5 (dxArMg dx 1) []) S754_nan
  = F32.mul f32_0_5 (F32.of_int (spec_level 1 2 5 1)) /\
  filter all_zero (dxArMg dx 1) = [nth 4 (dxArMg dx 1) []].
Proof.
  assert (HR : lattice_in_range 1 (length [f32_1_0; f32_0_5]))
    by (unfold lattice_in_range; simpl; lia).
  split; [exact HR|].
  destruct (lattice_enumeration [f32_1_0; f32_0_5] 1 HR)
    as (H1 & H2 & _ & _ & H5).
  split; [exact H1|]. split; [apply (H2 5%nat 1%nat); simpl; lia|].
  apply H5. repeat constructor.
Defined.

(** ** One iteration: the selected index *)

Section Selection.

Variable toString : VectorXf -> string.
Variable fun_ : VectorXf -> spec_float.

Lemma evaluate_all_extends (keys : MatrixXf) (st : State) :
  extends (results_cache st) (results_cache (snd (evaluate_all fun_ keys st))).
Proof.
  apply evaluate_all_preserves
    with (P := fun s => extends (results_cache st) (results_cache s)).
  - intros key s H. eapply extends_trans; eauto using evaluate_extends.
  - apply extends_refl.
Qed.

(** After a pass every candidate is in the cache with the result the pass
    used for it. *)
Lemma evaluate_all_stored (keys : MatrixXf) (st : State) (i : nat) :
  (i < length keys)%nat ->
  lookup (results_cache (snd (evaluate_all fun_ keys st))) (nth i keys [])
  = Some (nth i (fst (evaluate_all fun_ keys st)) S754_nan).
Proof.
  revert st i. induction keys as [|key rest IH]; intros st i Hi; simpl in *.
  - lia.
  - pose proof (evaluate_stored fun_ key st) as Hs.
    destruct (evaluate fun_ key st) as [r st']. simpl in Hs.
    pose proof (evaluate_all_extends rest st') as Hext.
    specialize (IH st'). destruct (evaluate_all fun_ rest st') as [rs st''].
    simpl in *. destruct i as [|i].
    + eauto using extends_lookup.
    + apply IH. lia.
Qed.

Lemma length_rowwise_add (m : MatrixXf) (x : VectorXf) :
  length (rowwise_add m x) = length m.
Proof. unfold rowwise_add. apply length_map. Qed.

Lemma select_argmin (dxAr : MatrixXf) (x : VectorXf) (st : State) :
  fst (select fun_ dxAr x st)
  = argmin (fst (evaluate_all fun_ (rowwise_add dxAr x) st)) 0 F32.FLT_MAX (-1).
Proof. unfold select. now rewrite scan_evaluate_all. Qed.

(** What one iteration's scan establishes. *)
Lemma select_inv (dxAr : MatrixXf) (x : VectorXf) (st : State) :
  Z.of_nat (length dxAr) < 2 ^ 31 ->
  argmin_inv (fst (evaluate_all fun_ (rowwise_add dxAr x) st))
    (fst (fst (select fun_ dxAr x st))) (snd (fst (select fun_ dxAr x st))).
Proof.
  intros Hlen. rewrite select_argmin. apply argmin_inv_start.
  now rewrite length_evaluate_all, length_rowwise_add.
Qed.

(** When some result is below [FLT_MAX], the scan selects the first index
    of a smallest result. *)
Lemma select_first_minimum (dxAr : MatrixXf) (x : VectorXf) (st : State) :
  Z.of_nat (length dxAr) < 2 ^ 31 ->
  let results := fst (evaluate_all fun_ (rowwise_add dxAr x) st) in
  let resMin := fst (fst (select fun_ dxAr x st)) in
  let idxMin := snd (fst (select fun_ dxAr x st)) in
  (exists i, (i < length results)%nat /\
             F32.ltb (nth i results S754_nan) F32.FLT_MAX = true) ->
  0 <= idxMin < Z.of_nat (length dxAr) /\
  nth (Z.to_nat idxMin) results S754_nan = resMin /\
  F32.ltb resMin F32.FLT_MAX = true /\
  (forall i, (i < length results)%nat ->
     F32.ltb (nth i results S754_nan) resMin = false) /\
  (forall i, (i < length results)%nat ->
     F32.leb (nth i results S754_nan) resMin = true -> idxMin <= Z.of_nat i).
Proof.
  intros Hlen results resMin idxMin (i & Hi & Hlt).
  pose proof (select_inv dxAr x st Hlen) as Hinv.
  fold results resMin idxMin in Hinv.
  assert (HL : length results = length dxAr)
    by (unfold results; now rewrite length_evaluate_all, length_rowwise_add).
  destruct Hinv as [(_ & _ & Hnone)|(Hb & Hn & Hm & Hall & Hfirst)].
  - rewrite Hnone in Hlt by assumption. discriminate.
  - repeat split; try lia; auto.
    intros j Hj Hle.
    destruct (Z_lt_le_dec (Z.of_nat j) idxMin) as [Hlt'|]; auto.
    rewrite Hfirst in Hle by lia. discriminate.
Qed.

Lemma row_nth (m : MatrixXf) (i : nat) :
  (i < length m)%nat -> row m (Z.of_nat i) = Some (nth i m []).
Proof.
  intros Hi. unfold row.
  destruct (Z.ltb_spec (Z.of_nat i) 0); [lia|].
  rewrite Nat2Z.id. now apply nth_error_nth'.
Qed.

Lemma row_in_range (m : MatrixXf) (i : Z) :
  0 <= i < Z.of_nat (length m) -> row m i = Some (nth (Z.to_nat i) m []).
Proof.
  intros Hi. rewrite <- (Z2Nat.id i) at 1 by lia. apply row_nth. lia.
Qed.

(** The first iteration with nothing selected ends in the out-of-bounds row
    access of line 128. *)
Lemma descend_nothing_selected (dxAr : MatrixXf) (d n : nat) (x : VectorXf)
    (st : State) :
  length x = d -> snd (fst (select fun_ dxAr x st)) = -1 ->
  fst (descend toString fun_ dxAr d (S n) x st) = Row_out_of_bounds.
Proof.
  intros Hx Hsel. simpl. rewrite Hx, Nat.eqb_refl. simpl.
  destruct (select fun_ dxAr x st) as [[m im] st']. simpl in Hsel. subst im.
  reflexivity.
Qed.

End Selection.

(** C10.  Inside the [int] range of the lattice: if some candidate's result
    is not NaN and is below [FLT_MAX], the index selected by the scan lies in
    [[0, (2k+1)^d)] and both row reads of lines 128 and 130 succeed; if every
    result is NaN or not below [FLT_MAX], the index stays [-1], the row read
    is out of bounds, and the iteration ends there. *)
Theorem idxMin_valid_iff_result_below_FLT_MAX
    (toString : VectorXf -> string) (f : VectorXf -> spec_float)
    (dx : VectorXf) (k : Z) (x : VectorXf) (st : State) :
  lattice_in_range k (length dx) ->
  let dxAr := dxArMg dx k in
  let results := fst (evaluate_all f (rowwise_add dxAr x) st) in
  let idxMin := snd (fst (select f dxAr x st)) in
  ((exists i, (i < length results)%nat /\
              F32.is_nan (nth i results S754_nan) = false /\
              F32.ltb (nth i results S754_nan) F32.FLT_MAX = true) ->
   0 <= idxMin < (2 * k + 1) ^ Z.of_nat (length dx) /\
   (exists x', row (rowwise_add dxAr x) idxMin = Some x') /\
   (exists off, row dxAr idxMin = Some off))
  /\
  ((forall i, (i < length results)%nat ->
      F32.is_nan (nth i results S754_nan) = true \/
      F32.ltb (nth i results S754_nan) F32.FLT_MAX = false) ->
   idxMin = -1 /\
   row (rowwise_add dxAr x) idxMin = None /\
   (length x = length dx ->
    forall n, fst (descend toString f dxAr (length dx) (S n) x st)
              = Row_out_of_bounds)).
Proof.
  intros HR dxAr results idxMin.
  pose proof (length_dxArMg_pow dx k (proj1 HR)) as Hlen.
  fold dxAr in Hlen.
  assert (Hsmall : Z.of_nat (length dxAr) < 2 ^ 31)
    by (destruct HR as (_ & _ & H); lia).
  pose proof (select_inv f dxAr x st Hsmall) as Hinv.
  fold results idxMin in Hinv.
  assert (HL : length results = length dxAr)
    by (unfold results; now rewrite length_evaluate_all, length_rowwise_add).
  split.
  - intros (i & Hi & _ & Hlt).
    destruct Hinv as [(_ & _ & Hnone)|(Hb & _)].
    + rewrite Hnone in Hlt by assumption. discriminate.
    + rewrite HL in Hb. split; [lia|]. split; eexists; apply row_in_range;
        rewrite ?length_rowwise_add; lia.
  - intros Hall.
    assert (E : idxMin = -1).
    { destruct Hinv as [(E & _)|(Hb & Hn & Hm & _)]; auto.
      destruct (Hall (Z.to_nat idxMin) ltac:(lia)) as [Hnan|Hge];
        rewrite Hn in *; [|congruence].
      destruct (fst (fst (select f dxAr x st))); discriminate. }
    split; [exact E|]. split; [now rewrite E|].
    intros Hx n. now apply descend_nothing_selected.
Qed.

Lemma idxMin_valid_iff_result_below_FLT_MAX_witness :
  lattice_in_range 1 1 /\
  fst (descend (fun _ => EmptyString) (fun _ => S754_nan)
         (dxArMg [f32_1_0] 1) 1 1 [S754_zero false] (mkState [] []))
  = Row_out_of_bounds.
Proof.
  assert (HR : lattice_in_range 1 (length [f32_1_0]))
    by (unfold lattice_in_range; simpl; lia).
  split; [exact HR|].
  destruct (idxMin_valid_iff_result_below_FLT_MAX
              (fun _ => EmptyString) (fun _ => S754_nan)
              [f32_1_0] 1 [S754_zero false] (mkState [] []) HR)
    as (_ & H).
  apply H.
  - intros i Hi. left.
    destruct i as [|[|[|i]]]; try reflexivity. simpl in Hi. lia.
  - reflexivity.
Defined.

(** ** Selection when no result is below [FLT_MAX] *)

(** C4 at the failing input: for an objective that is [+inf] everywhere all
    three candidates share the smallest value, so the first of them should
    be selected; but the scan starts from [resMin = FLT_MAX] and updates on
    [result < resMin] only, so it selects none: [idxMin] stays [-1] and the
    run ends in the row read of line 128 at index [-1], outside the
    matrix. *)
Lemma no_candidate_selected_at_infinity :
  let f := fun _ : VectorXf => f32_inf in
  let dxAr := dxArMg [f32_1_0] 1 in
  let st := mkState [] [] in
  fst (evaluate_all f (rowwise_add dxAr [S754_zero false]) st)
  = [f32_inf; f32_inf; f32_inf] /\
  snd (fst (select f dxAr [S754_zero false] st)) = -1 /\
  fst (minimize_discrete_stepwise_cpp (fun _ => EmptyString) f
         [S754_zero false] st [f32_1_0] 1 10000)
  = Row_out_of_bounds.
Proof. repeat split; vm_compute; reflexivity. Qed.

Lemma ltb_false_leb (a b : spec_float) :
  F32.is_nan a = false -> F32.is_nan b = false ->
  F32.ltb a b = false -> F32.leb b a = true.
Proof. destruct a, b; intros; float_order. Qed.

Lemma ltb_not_nan (a b : spec_float) :
  F32.ltb a b = true -> F32.is_nan a = false /\ F32.is_nan b = false.
Proof. destruct a, b; intros; split; try reflexivity; float_order. Qed.

(** X19.  In an iteration inside the domain of the container (cache keys and
    candidates of one size, without NaN) in which some candidate's value is
    below [FLT_MAX], the scan selects a candidate [n] whose value [resMin] is
    below [FLT_MAX], than which no candidate's value is strictly smaller, and
    which comes first among the candidates whose value is not larger.  These
    properties determine [n]: the selection is a function of the candidates'
    values alone.  The value of a candidate is the one the cache holds for it
    after the pass. *)
Theorem selected_candidate_is_first_minimum (f : VectorXf -> spec_float)
    (dxAr : MatrixXf) (x : VectorXf) (st : State) :
  Z.of_nat (length dxAr) < 2 ^ 31 ->
  Forall (fun off => length off = length x) dxAr ->
  cache_in_domain (length x) (results_cache st) = true ->
  forallb no_nanb (rowwise_add dxAr x) = true ->
  let keys := rowwise_add dxAr x in
  let value i := lookup (results_cache (snd (select f dxAr x st))) (nth i keys []) in
  let resMin := fst (fst (select f dxAr x st)) in
  let idxMin := snd (fst (select f dxAr x st)) in
  let first_minimum n v :=
    (n < length keys)%nat /\ value n = Some v /\
    F32.ltb v F32.FLT_MAX = true /\
    forall i w, (i < length keys)%nat -> value i = Some w ->
      F32.ltb w v = false /\ (F32.leb w v = true -> (n <= i)%nat) in
  (exists i v, (i < length keys)%nat /\ value i = Some v /\
               F32.ltb v F32.FLT_MAX = true) ->
  exists n, idxMin = Z.of_nat n /\ first_minimum n resMin /\
            forall n' v', first_minimum n' v' -> n' = n.
Proof.
  intros Hlen _ _ _ keys value resMin idxMin first_minimum
    (i & v & Hi & Hv & Hlt).
  set (results := fst (evaluate_all f keys st)).
  assert (HL : length results = length keys)
    by (unfold results; apply length_evaluate_all).
  assert (Hval : forall j, (j < length keys)%nat ->
                   value j = Some (nth j results S754_nan)).
  { intros j Hj. unfold value. rewrite select_state.
    now apply evaluate_all_stored. }
  assert (Hk : length keys = length dxAr) by apply length_rowwise_add.
  destruct (select_first_minimum f dxAr x st Hlen)
    as (Hb & Hn & Hm & Hall & Hfirst).
  { exists i. fold keys results. rewrite HL. split; auto.
    rewrite Hval in Hv by auto. congruence. }
  fold keys results resMin idxMin in Hb, Hn, Hm, Hall, Hfirst.
  assert (F : first_minimum (Z.to_nat idxMin) resMin).
  { unfold first_minimum. split; [lia|]. split; [rewrite Hval by lia; congruence|].
    split; auto. intros j w Hj Hw. rewrite Hval in Hw by auto.
    injection Hw as <-. split; [apply Hall; lia|].
    intros Hle. apply Hfirst in Hle; lia. }
  exists (Z.to_nat idxMin). split; [lia|]. split; auto.
  intros n' v' (Hn' & Hv' & Hm' & Hmin').
  destruct F as (Hn0 & Hv0 & _ & Hmin0).
  destruct (Hmin0 n' v' Hn' Hv') as (Ha & Hb').
  destruct (Hmin' _ _ Hn0 Hv0) as (Hc & Hd).
  destruct (ltb_not_nan _ _ Hm) as (Hnan0 & _).
  destruct (ltb_not_nan _ _ Hm') as (Hnan' & _).
  pose proof (ltb_false_leb _ _ Hnan' Hnan0 Ha).
  pose proof (ltb_false_leb _ _ Hnan0 Hnan' Hc).
  specialize (Hb' ltac:(assumption)). specialize (Hd ltac:(assumption)). lia.
Qed.

Lemma selected_candidate_is_first_minimum_witness :
  let f := fun v : VectorXf => nth 0 v S754_nan in
  let dxAr := dxArMg [f32_1_0] 1 in
  exists n, snd (fst (select f dxAr [S754_zero false] (mkState [] [])))
            = Z.of_nat n /\ n = 0%nat.
Proof.
  intros f dxAr.
  destruct (selected_candidate_is_first_minimum f dxAr [S754_zero false]
              (mkState [] [])) as (n & Hn & _).
  - vm_compute. reflexivity.
  - repeat constructor.
  - reflexivity.
  - reflexivity.
  - exists 0%nat, (S754_finite true 8388608 (-23)).
    split; [vm_compute; lia | split; vm_compute; reflexivity].
  - exists n. split; [exact Hn|].
    assert (E : snd (fst (select f dxAr [S754_zero false] (mkState [] []))) = 0)
      by (vm_compute; reflexivity).
    rewrite E in Hn. lia.
Defined.

(** ** Starting at a minimum *)

Lemma parse_parameters_same_length (x dx : VectorXf) :
  length x = length dx -> parse_parameters x dx = (x, dx).
Proof.
  intros H. unfold parse_parameters.
  destruct (Nat.eqb_spec (length x) 1) as [E|E].
  - rewrite <- H, E. simpl.
    destruct x as [|a [|b x]]; try discriminate. reflexivity.
  - simpl. destruct (Nat.eqb_spec (length dx) 1) as [E'|E']; [lia|].
    reflexivity.
Qed.

Lemma all_zero_isZero (v : VectorXf) : all_zero v = true -> isZero v = true.
Proof.
  unfold all_zero, isZero. rewrite !forallb_forall. intros H c Hc.
  specialize (H c Hc). destruct c as [[|]| | |]; try discriminate; reflexivity.
Qed.

(** Adding a zero leaves every value but [-0] as it is. *)
Lemma add_zero_l (z a : spec_float) :
  F32.is_zero z = true -> a <> S754_zero true -> F32.add z a = a.
Proof.
  destruct z as [sz| | |]; try discriminate. intros _ Ha.
  destruct a as [[|]| | |]; destruct sz; try reflexivity; congruence.
Qed.

Lemma add_zero_row (off x : VectorXf) :
  length off = length x -> all_zero off = true ->
  Forall (fun a => a <> S754_zero true) x ->
  add_row off x = x.
Proof.
  unfold add_row.
  revert x. induction off as [|z off IH]; intros [|a x] Hlen Hz Hx;
    simpl in *; try discriminate; auto.
  apply andb_prop in Hz. destruct Hz as (Hz1 & Hz2).
  inversion Hx; subst. f_equal; auto using add_zero_l.
Qed.

Lemma nth_rowwise_add (m : MatrixXf) (x : VectorXf) (i : nat) :
  (i < length m)%nat ->
  nth i (rowwise_add m x) [] = add_row (nth i m []) x.
Proof.
  intros Hi. unfold rowwise_add.
  set (g := fun off : VectorXf => add_row off x).
  rewrite (nth_indep _ [] (g [])) by now rewrite length_map.
  now rewrite map_nth.
Qed.

Section Measured.

Variable fun_ : VectorXf -> spec_float.
Variable c0 : Cache.
Variable candidates : MatrixXf.
(** The objective agrees on candidates that the comparator identifies. *)
Hypothesis fun_respects :
  forall a b, In a candidates -> In b candidates ->
    key_equiv a b = true -> fun_ a = fun_ b.

Lemma same_measure_evaluate (key : VectorXf) (st : State) :
  In key candidates -> same_measure fun_ c0 candidates st ->
  same_measure fun_ c0 candidates (snd (evaluate fun_ key st)).
Proof.
  intros Hkey H key' Hkey'. rewrite <- (H key' Hkey').
  rewrite evaluate_cache.
  destruct (lookup (results_cache st) key) eqn:E; auto.
  unfold measured. rewrite lookup_app.
  destruct (lookup (results_cache st) key'); auto.
  simpl. destruct (key_equiv key key') eqn:K; auto.
Qed.

(** Under that agreement a pass sees, at every candidate, the value measured
    through the cache it started from. *)
Lemma evaluate_all_measured (keys : MatrixXf) (st : State) :
  incl keys candidates -> same_measure fun_ c0 candidates st ->
  fst (evaluate_all fun_ keys st) = map (measured fun_ c0) keys.
Proof.
  revert st. induction keys as [|key rest IH]; intros st Hincl H; simpl; auto.
  assert (Hkey : In key candidates) by (apply Hincl; simpl; auto).
  pose proof (evaluate_result fun_ key st) as Hr.
  pose proof (same_measure_evaluate key st Hkey H) as H'.
  destruct (evaluate fun_ key st) as [r st']. simpl in Hr, H'.
  specialize (IH st' ltac:(intros a Ha; apply Hincl; simpl; auto) H').
  destruct (evaluate_all fun_ rest st') as [rs st'']. simpl in *.
  now rewrite Hr, IH, (H key Hkey).
Qed.

End Measured.

(** C3 as stated fails on ties: for a constant objective the start point is
    no worse than any neighbour, yet the scan keeps the first of the equal
    candidates, the offset [-dx], so the run moves away and never converges. *)
Lemma tie_with_earlier_neighbour_moves_away :
  let f := fun _ : VectorXf => S754_zero false in
  let x := [S754_zero false] in
  let st := mkState [] [] in
  let keys := rowwise_add (dxArMg [f32_1_0] 1) x in
  (forall key, In key keys -> F32.leb (f x) (f key) = true) /\
  snd (fst (select f (dxArMg [f32_1_0] 1) x st)) = 0 /\
  fst (minimize_discrete_stepwise_cpp (fun _ => EmptyString) f x st
         [f32_1_0] 1 1)
  = Throw_invalid_argument "maxiter reached without convergence (x = {})" /\
  fst (minimize_discrete_stepwise_cpp (fun _ => EmptyString) f x st
         [f32_1_0] 1 50)
  = Throw_invalid_argument "maxiter reached without convergence (x = {})".
Proof.
  split; [intros key _; reflexivity|].
  repeat split; vm_compute; reflexivity.
Qed.

(** C3, amended.  Let the point [x] have as many coordinates as the finite
    step vector, none of them [-0], inside the [int] range of the lattice and
    with [maxiter >= 1]; let the keys of the cache passed in have that number
    of coordinates and no NaN, and let no candidate have a NaN coordinate
    (the domain of the container); let values be measured through the cache
    (the stored value if there is one, the objective otherwise), the
    objective agreeing on candidates the comparator identifies.  If the value
    at [x] is below [FLT_MAX], strictly smaller than the value of every
    candidate enumerated before the zero offset, and not larger than the
    value of every candidate enumerated after it, then the run performs
    exactly one pass over the candidates and returns [x] unchanged. *)
Theorem converges_at_first_strict_minimum (toString : VectorXf -> string)
    (f : VectorXf -> spec_float) (x dx : VectorXf) (k maxiter : Z)
    (st : State) :
  lattice_in_range k (length dx) ->
  length x = length dx ->
  Forall (fun a => F32.is_finite a = true) dx ->
  Forall (fun a => a <> S754_zero true) x ->
  0 < maxiter ->
  let dxAr := dxArMg dx k in
  let keys := rowwise_add dxAr x in
  let value key := measured f (results_cache st) key in
  let i0 := Z.to_nat (zero_index k (length dx)) in
  cache_in_domain (length dx) (results_cache st) = true ->
  forallb no_nanb keys = true ->
  (forall a b, In a keys -> In b keys -> key_equiv a b = true -> f a = f b) ->
  F32.ltb (value x) F32.FLT_MAX = true ->
  (forall i, (i < i0)%nat ->
     F32.ltb (value x) (value (nth i keys [])) = true) ->
  (forall i, (i0 < i < length keys)%nat ->
     F32.leb (value x) (value (nth i keys [])) = true) ->
  minimize_discrete_stepwise_cpp toString f x st dx k maxiter
  = (Return x, snd (select f dxAr x st)).
Proof.
  intros HR Hx Hfin Hnz Hmax dxAr keys value i0 _ _ Hresp Hlt Hbefore Hafter.
  pose proof HR as (Hk & _ & Hsize).
  (* the zero row and the candidate it yields *)
  assert (Hi0 : (i0 < length dxAr)%nat).
  { unfold dxAr. rewrite length_dxArMg. now apply zero_index_lt_sizeMg. }
  assert (Hrow0 : nth i0 dxAr [] = dxArMg_row dx k i0).
  { apply nth_dxArMg. now apply zero_index_lt_sizeMg. }
  assert (Hzero : all_zero (nth i0 dxAr []) = true).
  { rewrite Hrow0. now apply all_zero_zero_index. }
  assert (Hkey0 : nth i0 keys [] = x).
  { unfold keys. rewrite nth_rowwise_add by assumption.
    apply add_zero_row; auto. rewrite Hrow0, length_dxArMg_row. auto. }
  assert (Hlen : Z.of_nat (length dxAr) < 2 ^ 31).
  { unfold dxAr. rewrite length_dxArMg. unfold sizeMg, pow_int.
    pose proof (pow_B_pos k Hk (length dx)). lia. }
  assert (Hk' : length keys = length dxAr) by apply length_rowwise_add.
  (* the results of the pass are the measured values *)
  set (results := fst (evaluate_all f keys st)).
  assert (Hres : forall i, (i < length keys)%nat ->
                   nth i results S754_nan = value (nth i keys [])).
  { intros i Hi. unfold results.
    rewrite (evaluate_all_measured f (results_cache st) keys Hresp keys st)
      by (auto using incl_refl; intros ? ?; reflexivity).
    rewrite (nth_indep _ S754_nan (measured f (results_cache st) []))
      by now rewrite length_map.
    now rewrite map_nth. }
  assert (HL : length results = length keys)
    by (unfold results; apply length_evaluate_all).
  (* the scan selects the zero row *)
  assert (Hsel : snd (fst (select f dxAr x st)) = Z.of_nat i0).
  { pose proof (select_inv f dxAr x st Hlen) as Hinv.
    fold keys results in Hinv.
    destruct Hinv as [(_ & _ & Hnone)|(Hb & Hn & Hm & Hall & Hfirst)].
    - specialize (Hnone i0 ltac:(lia)).
      rewrite Hres, Hkey0 in Hnone by lia. congruence.
    - set (im := snd (fst (select f dxAr x st))) in *.
      destruct (Z.lt_trichotomy im (Z.of_nat i0)) as [Hc|[Hc|Hc]]; auto.
      + specialize (Hbefore (Z.to_nat im) ltac:(lia)).
        rewrite <- Hres, Hn in Hbefore by lia.
        specialize (Hall i0 ltac:(lia)).
        rewrite Hres, Hkey0 in Hall by lia. congruence.
      + specialize (Hafter (Z.to_nat im) ltac:(lia)).
        rewrite <- Hres, Hn in Hafter by lia.
        specialize (Hfirst i0 ltac:(lia)).
        rewrite Hres, Hkey0 in Hfirst by lia. congruence. }
  (* hence the first iteration returns *)
  unfold minimize_discrete_stepwise_cpp.
  rewrite parse_parameters_same_length by assumption.
  destruct (Z.to_nat maxiter) as [|n] eqn:En; [lia|].
  simpl. rewrite Hx, Nat.eqb_refl. simpl. fold dxAr.
  destruct (select f dxAr x st) as [[m im] st']. simpl in Hsel. subst im.
  rewrite !row_nth by (rewrite ?length_rowwise_add; assumption).
  fold keys. rewrite Hkey0, (all_zero_isZero _ Hzero). reflexivity.
Qed.

Lemma converges_at_first_strict_minimum_witness :
  minimize_discrete_stepwise_cpp (fun _ => EmptyString) square0
    [S754_zero false] (mkState [] []) [f32_1_0] 1 10000
  = (Return [S754_zero false],
     snd (select square0 (dxArMg [f32_1_0] 1) [S754_zero false]
            (mkState [] []))).
Proof.
  assert (Hkeys : rowwise_add (dxArMg [f32_1_0] 1) [S754_zero false]
                  = [[S754_finite true 8388608 (-23)]; [S754_zero false];
                     [f32_1_0]]) by reflexivity.
  assert (Hi0 : Z.to_nat (zero_index 1 (length [f32_1_0])) = 1%nat)
    by reflexivity.
  apply converges_at_first_strict_minimum.
  - unfold lattice_in_range. simpl. lia.
  - reflexivity.
  - repeat constructor.
  - constructor; [discriminate|constructor].
  - lia.
  - reflexivity.
  - reflexivity.
  - rewrite Hkeys. intros a b Ha Hb Hk. simpl in Ha, Hb.
    destruct Ha as [<-|[<-|[<-|[]]]], Hb as [<-|[<-|[<-|[]]]];
      try reflexivity; vm_compute in Hk; discriminate.
  - reflexivity.
  - rewrite Hi0, Hkeys. intros i Hi.
    assert (i = 0%nat) as -> by lia. reflexivity.
  - rewrite Hi0, Hkeys. simpl length. intros i Hi.
    assert (i = 2%nat) as -> by lia. reflexivity.
Defined.

(** ** Convergence test with a step below Eigen's tolerance *)

(** C1 at the failing input: from [x = [0]] with step [2^-20] the first scan
    selects the offset [-2^-20]; [isZero] accepts that row because its
    magnitude is below [1e-5], so the run returns [[-2^-20]] although its
    lattice neighbour [[-2^-19]] has a strictly smaller objective value. *)
Theorem tiny_step_returns_non_minimum :
  let run := minimize_discrete_stepwise_cpp (fun _ => EmptyString) coord0
               [S754_zero false] (mkState [] []) [f32_tiny] 1 10000 in
  let ret := [S754_finite true 8388608 (-43)] in
  let neighbour := [S754_finite true 8388608 (-42)] in
  fst run = Return ret /\
  nth 0 (rowwise_add (dxArMg [f32_tiny] 1) ret) [] = neighbour /\
  F32.ltb (measured coord0 (results_cache (snd run)) neighbour)
          (measured coord0 (results_cache (snd run)) ret) = true.
Proof. repeat split; vm_compute; reflexivity. Qed.

(** C2 at the failing input: with [maxiter = 1] the single iteration selects
    row 0 of the lattice, the offset [[-2^-20]], which is not the all-zero
    vector; still the run reports convergence and returns the moved point
    instead of throwing. *)
Theorem tiny_step_returns_without_zero_offset :
  let dxAr := dxArMg [f32_tiny] 1 in
  let st := mkState [] [] in
  let idxMin := snd (fst (select coord0 dxAr [S754_zero false] st)) in
  idxMin = 0 /\
  row dxAr idxMin = Some [S754_finite true 8388608 (-43)] /\
  all_zero [S754_finite true 8388608 (-43)] = false /\
  isZero [S754_finite true 8388608 (-43)] = true /\
  fst (minimize_discrete_stepwise_cpp (fun _ => EmptyString) coord0
         [S754_zero false] st [f32_tiny] 1 1)
  = Return [S754_finite true 8388608 (-43)].
Proof. repeat split; vm_compute; reflexivity. Qed.

(** ** What the outcomes of a run mean *)

Section Outcomes.

Variable toString : VectorXf -> string.
Variable fun_ : VectorXf -> spec_float.
Variable dxAr : MatrixXf.
Variable d : nat.

(** The call throws exactly when all [n] iterations complete without the
    convergence test succeeding, and the message carries the last point. *)
Lemma descend_Throw (n : nat) (x : VectorXf) (st st' : State) (w : string) :
  descend toString fun_ dxAr d n x st = (Throw_invalid_argument w, st') <->
  exists xf, unconverged fun_ dxAr d n x st = Some (xf, st') /\ w = what toString xf.
Proof.
  revert x st. induction n as [|n IH]; intros x st; simpl.
  - split.
    + intros [= <- <-]. eauto.
    + intros (xf & [= <- <-] & ->). reflexivity.
  - destruct (negb (length x =? d)%nat).
    { split; [discriminate|]. intros (xf & H & _). discriminate. }
    destruct (select fun_ dxAr x st) as [[m im] st1].
    destruct (row (rowwise_add dxAr x) im) as [x1|];
      [|split; [discriminate|intros (xf & H & _); discriminate]].
    destruct (row dxAr im) as [off|];
      [|split; [discriminate|intros (xf & H & _); discriminate]].
    destruct (isZero off); [|apply IH].
    split; [discriminate|]. intros (xf & H & _). discriminate.
Qed.

(** A returned point is the candidate selected in some iteration whose
    selected offset passed the convergence test; the final state is the state
    after that iteration's pass. *)
Lemma descend_Return (n : nat) (x : VectorXf) (st : State) (ret : VectorXf) :
  fst (descend toString fun_ dxAr d n x st) = Return ret ->
  exists xc stc off,
    length xc = d /\
    row dxAr (snd (fst (select fun_ dxAr xc stc))) = Some off /\
    isZero off = true /\
    row (rowwise_add dxAr xc) (snd (fst (select fun_ dxAr xc stc))) = Some ret /\
    snd (descend toString fun_ dxAr d n x st) = snd (select fun_ dxAr xc stc).
Proof.
  revert x st. induction n as [|n IH]; intros x st; simpl; [discriminate|].
  destruct (Nat.eqb_spec (length x) d) as [Hx|Hx]; simpl; [|discriminate].
  destruct (select fun_ dxAr x st) as [[m im] st1] eqn:Esel.
  destruct (row (rowwise_add dxAr x) im) as [x1|] eqn:E1; [|discriminate].
  destruct (row dxAr im) as [off|] eqn:E2; [|discriminate].
  destruct (isZero off) eqn:Ez; [|apply IH].
  simpl. intros [= <-]. exists x, st, off. rewrite Esel. simpl. auto.
Qed.

End Outcomes.

(** For a whole call: it throws exactly when [maxiter] iterations complete
    without the convergence test of line 130 succeeding, and then the message
    is built from the point reached. *)
Corollary minimize_Throw (toString : VectorXf -> string)
    (f : VectorXf -> spec_float) (x dx : VectorXf) (k maxiter : Z)
    (st st' : State) (w : string) :
  let x' := fst (parse_parameters x dx) in
  let dx' := snd (parse_parameters x dx) in
  minimize_discrete_stepwise_cpp toString f x st dx k maxiter
  = (Throw_invalid_argument w, st') <->
  exists xf,
    unconverged f (dxArMg dx' k) (length dx') (Z.to_nat maxiter) x' st
    = Some (xf, st') /\
    w = what toString xf.
Proof.
  unfold minimize_discrete_stepwise_cpp.
  destruct (parse_parameters x dx) as [x' dx']. simpl.
  apply descend_Throw.
Qed.

(** The specification's scenario: [f(x) = -x[0]] decreases without bound,
    and with [maxiter = 5] the call throws, the message carrying the point
    reached, [[5]]. *)
Example non_convergence_reported (toString : VectorXf -> string) :
  fst (minimize_discrete_stepwise_cpp toString neg_coord0 [S754_zero false]
         (mkState [] []) [f32_1_0] 1 5)
  = Throw_invalid_argument (what toString [F32.of_int 5]).
Proof. vm_compute. reflexivity. Qed.

(** The specification's 1-D scenario: from [0] with step [0.1f] the descent on
    [(x[0] - 3.7)^2] returns a point within one step of [3.7], after the
    objective was evaluated at 42 points. *)
Example parabola_scenario :
  let run := minimize_discrete_stepwise_cpp (fun _ => EmptyString) parabola
               [S754_zero false] (mkState [] []) [f32_0_1] 1 10000 in
  fst run = Return [S754_finite false 15518919 (-22)] /\
  F32.leb (F32.abs (SFsub F32.prec F32.emax
                      (S754_finite false 15518919 (-22)) f32_3_7))
          f32_0_1 = true /\
  length (calls (snd run)) = 42%nat.
Proof. repeat split; vm_compute; reflexivity. Qed.

(** ** Local minimality when the convergence test is exact *)

Lemma zero_eq_refl (a : spec_float) : zero_eq a a.
Proof. now left. Qed.

Lemma ltb_zero_eq (a a' b b' : spec_float) :
  zero_eq a a' -> zero_eq b b' -> F32.ltb a b = F32.ltb a' b'.
Proof.
  intros [->|(Ha & Ha')] [->|(Hb & Hb')]; auto.
  - destruct b, b'; try discriminate; destruct a'; reflexivity.
  - destruct a, a'; try discriminate; destruct b'; reflexivity.
  - destruct a, a', b, b'; try discriminate; reflexivity.
Qed.

Lemma Compare_zero_eq (a a' b b' : VectorXf) :
  Forall2 zero_eq a a' -> Forall2 zero_eq b b' ->
  EigenVectorXfCompare a b = EigenVectorXfCompare a' b'.
Proof.
  intros Ha. revert b b'.
  induction Ha as [|x x' a a' Hx Ha IH]; intros b b' Hb;
    destruct Hb as [|y y' b b' Hy Hb]; simpl; auto.
  rewrite (ltb_zero_eq x x' y y'), (ltb_zero_eq y y' x x') by assumption.
  now rewrite (IH b b').
Qed.

Lemma Forall2_zero_eq_refl (a : VectorXf) : Forall2 zero_eq a a.
Proof. induction a; constructor; auto using zero_eq_refl. Qed.

Lemma lookup_zero_eq (c : Cache) (key key' : VectorXf) :
  Forall2 zero_eq key key' -> lookup c key = lookup c key'.
Proof.
  intros H. induction c as [|[k v] c IH]; simpl; auto.
  unfold key_equiv.
  rewrite (Compare_zero_eq k k key key'), (Compare_zero_eq key key' k k)
    by auto using Forall2_zero_eq_refl.
  now rewrite IH.
Qed.

Lemma add_zero_cases (z a : spec_float) :
  F32.is_zero z = true ->
  F32.add z a = a \/
  (F32.is_zero a = true /\ F32.is_zero (F32.add z a) = true).
Proof.
  destruct z as [sz| | |]; try discriminate. intros _.
  destruct a as [sa| | |]; simpl; auto.
  destruct sz, sa; simpl; auto.
Qed.

Lemma add_zero_eq (o z a : spec_float) :
  F32.is_zero z = true -> zero_eq (F32.add o (F32.add z a)) (F32.add o a).
Proof.
  intros Hz. destruct (add_zero_cases z a Hz) as [->|(Ha & Hza)].
  - apply zero_eq_refl.
  - destruct (F32.add z a) as [s1| | |]; try discriminate.
    destruct a as [s2| | |]; try discriminate.
    destruct o as [so| | |]; try (left; reflexivity).
    right. destruct so, s1, s2; split; reflexivity.
Qed.

Lemma add_row_zero_eq (off z x : VectorXf) :
  all_zero z = true -> length z = length x ->
  Forall2 zero_eq (add_row off (add_row z x)) (add_row off x).
Proof.
  revert z x. induction off as [|o off IH]; intros z x Hz Hlen.
  - constructor.
  - destruct z as [|z0 z], x as [|x0 x]; try discriminate; simpl.
    + constructor.
    + apply andb_prop in Hz. destruct Hz as (Hz0 & Hz).
      constructor; [now apply add_zero_eq|]. apply IH; simpl in *; auto.
Qed.

Lemma row_Some (m : MatrixXf) (i : Z) (r : VectorXf) :
  row m i = Some r ->
  0 <= i < Z.of_nat (length m) /\ r = nth (Z.to_nat i) m [].
Proof.
  unfold row. destruct (Z.ltb_spec i 0) as [Hneg|Hpos]; [discriminate|].
  intros Hnth.
  assert (Hlt : (Z.to_nat i < length m)%nat)
    by (apply nth_error_Some; congruence).
  split; [lia|]. apply nth_error_nth with (d := []) in Hnth. auto.
Qed.

(** If the lattice has no nonzero row that Eigen's tolerance accepts as
    zero, a returned point is a local minimum: measured through the cache
    after the run, no lattice neighbour of the returned point has a strictly
    smaller value than the returned point. *)
Theorem local_minimum_when_zero_test_is_exact (toString : VectorXf -> string)
    (f : VectorXf -> spec_float) (dxAr : MatrixXf) (d n : nat)
    (x : VectorXf) (st : State) (ret : VectorXf) :
  Z.of_nat (length dxAr) < 2 ^ 31 ->
  Forall (fun off => length off = d) dxAr ->
  (forall off, In off dxAr -> isZero off = true -> all_zero off = true) ->
  fst (descend toString f dxAr d n x st) = Return ret ->
  let c' := results_cache (snd (descend toString f dxAr d n x st)) in
  exists w, lookup c' ret = Some w /\
    forall off, In off dxAr ->
      exists v, lookup c' (add_row off ret) = Some v /\ F32.ltb v w = false.
Proof.
  intros Hlen Hdim Hexact Hret c'.
  destruct (descend_Return toString f dxAr d n x st ret Hret)
    as (xc & stc & off0 & Hxc & Hoff & Hz & Hrow & Hst).
  subst c'. rewrite Hst, select_state.
  set (keys := rowwise_add dxAr xc) in *.
  set (results := fst (evaluate_all f keys stc)).
  set (im := snd (fst (select f dxAr xc stc))) in *.
  apply row_Some in Hoff. destruct Hoff as (Him & ->).
  apply row_Some in Hrow. destruct Hrow as (_ & ->).
  assert (Hk : length keys = length dxAr) by apply length_rowwise_add.
  assert (HL : length results = length keys) by apply length_evaluate_all.
  assert (Hin0 : In (nth (Z.to_nat im) dxAr []) dxAr) by (apply nth_In; lia).
  pose proof (Hexact _ Hin0 Hz) as Hzero.
  pose proof (select_inv f dxAr xc stc Hlen) as Hinv.
  fold keys results im in Hinv.
  destruct Hinv as [(E & _)|(_ & Hn & _ & Hall & _)]; [lia|].
  exists (nth (Z.to_nat im) results S754_nan). split.
  - apply evaluate_all_stored. rewrite Hk. lia.
  - intros off Hin. destruct (In_nth _ _ [] Hin) as (i & Hi & <-).
    exists (nth i results S754_nan). split.
    + transitivity
        (lookup (results_cache (snd (evaluate_all f keys stc))) (nth i keys [])).
      * apply lookup_zero_eq. unfold keys.
        rewrite (nth_rowwise_add dxAr xc i) by exact Hi.
        rewrite (nth_rowwise_add dxAr xc (Z.to_nat im)) by lia.
        apply (add_row_zero_eq (nth i dxAr []) (nth (Z.to_nat im) dxAr []) xc);
          auto.
        rewrite Forall_forall in Hdim. rewrite Hdim; auto.
      * apply evaluate_all_stored. rewrite Hk. exact Hi.
    + rewrite Hn. apply Hall. rewrite HL, Hk. exact Hi.
Qed.

(** X16.  For a whole call of the minimiser inside the domain of the
    container: if no nonzero row of the lattice
    passes Eigen's zero test, a returned point is a local minimum; measured
    through the cache handed back, no lattice neighbour of the returned point
    has a strictly smaller value than the returned point. *)
Corollary minimize_local_minimum_when_zero_test_is_exact
    (toString : VectorXf -> string) (f : VectorXf -> spec_float)
    (x dx : VectorXf) (k maxiter : Z) (st : State) (ret : VectorXf) :
  let dx' := snd (parse_parameters x dx) in
  let run := minimize_discrete_stepwise_cpp toString f x st dx k maxiter in
  lattice_in_range k (length dx') ->
  run_in_domain f x st dx k maxiter = true ->
  (forall off, In off (dxArMg dx' k) -> isZero off = true ->
               all_zero off = true) ->
  fst run = Return ret ->
  exists w, lookup (results_cache (snd run)) ret = Some w /\
    forall off, In off (dxArMg dx' k) ->
      exists v, lookup (results_cache (snd run)) (add_row off ret) = Some v /\
                F32.ltb v w = false.
Proof.
  unfold minimize_discrete_stepwise_cpp.
  destruct (parse_parameters x dx) as [x' dx']. simpl.
  intros (Hk & _ & Hsize) _ Hexact Hret.
  apply local_minimum_when_zero_test_is_exact with (d := length dx'); auto.
  - rewrite length_dxArMg. unfold sizeMg, pow_int.
    pose proof (pow_B_pos k Hk (length dx')). lia.
  - apply Forall_forall. intros off Hin. unfold dxArMg in Hin.
    apply in_map_iff in Hin. destruct Hin as (i & <- & _).
    apply length_dxArMg_row.
Qed.

Lemma minimize_local_minimum_when_zero_test_is_exact_witness :
  exists w,
    lookup (results_cache
              (snd (minimize_discrete_stepwise_cpp (fun _ => EmptyString)
                      square0 [f32_2_0] (mkState [] []) [f32_1_0] 1 3)))
      [S754_zero false] = Some w /\
    forall off, In off (dxArMg [f32_1_0] 1) ->
      exists v,
        lookup (results_cache
                  (snd (minimize_discrete_stepwise_cpp (fun _ => EmptyString)
                          square0 [f32_2_0] (mkState [] []) [f32_1_0] 1 3)))
          (add_row off [S754_zero false]) = Some v /\
        F32.ltb v w = false.
Proof.
  apply (minimize_local_minimum_when_zero_test_is_exact
           (fun _ => EmptyString) square0 [f32_2_0] [f32_1_0] 1 3
           (mkState [] []) [S754_zero false]).
  - unfold lattice_in_range. simpl. lia.
  - vm_compute. reflexivity.
  - intros off Hin.
    assert (E : dxArMg (snd (parse_parameters [f32_2_0] [f32_1_0])) 1
                = [[S754_finite true 8388608 (-23)]; [S754_zero false];
                   [f32_1_0]])
      by (vm_compute; reflexivity).
    rewrite E in Hin. destruct Hin as [<-|[<-|[<-|[]]]];
      vm_compute; intros H; congruence.
  - vm_compute. reflexivity.
Defined.

(** * Further properties of the code *)

(** ** The comparator [EigenVectorXfCompare] *)

Lemma ltb_asym (a b : spec_float) :
  F32.ltb a b = true -> F32.ltb b a = false.
Proof. destruct a, b; intros; float_order. Qed.

Lemma ltb_incomparable_r (a b c : spec_float) :
  F32.is_nan c = false ->
  F32.ltb a b = true -> F32.ltb b c = false -> F32.ltb c b = false ->
  F32.ltb a c = true.
Proof. destruct a, b, c; intros; float_order. Qed.

Lemma ltb_incomparable_l (a b c : spec_float) :
  F32.is_nan a = false ->
  F32.ltb a b = false -> F32.ltb b a = false -> F32.ltb b c = true ->
  F32.ltb a c = true.
Proof. destruct a, b, c; intros; float_order. Qed.

Lemma incomparable_trans (a b c : spec_float) :
  F32.is_nan b = false ->
  F32.ltb a b = false -> F32.ltb b a = false ->
  F32.ltb b c = false -> F32.ltb c b = false ->
  F32.ltb a c = false /\ F32.ltb c a = false.
Proof. destruct a, b, c; intros; split; float_order. Qed.

(** X1.  On vectors of one size, whatever their coordinates (NaN included),
    the comparator is irreflexive and asymmetric. *)
Theorem Compare_asymmetric (a b : VectorXf) :
  length a = length b ->
  EigenVectorXfCompare a a = false /\
  (EigenVectorXfCompare a b = true -> EigenVectorXfCompare b a = false).
Proof.
  intros _. split; [apply Compare_irrefl|].
  revert b. induction a as [|x a IH]; intros [|y b]; simpl; try discriminate.
  destruct (F32.ltb x y) eqn:Exy.
  - intros _. now rewrite (ltb_asym x y Exy).
  - destruct (F32.ltb y x); [discriminate|]. apply IH.
Qed.

Lemma Compare_asymmetric_witness :
  EigenVectorXfCompare [S754_nan; f32_2_0] [S754_nan; f32_2_0] = false /\
  (EigenVectorXfCompare [S754_nan; f32_2_0] [f32_0_5; f32_3_7] = true ->
   EigenVectorXfCompare [f32_0_5; f32_3_7] [S754_nan; f32_2_0] = false).
Proof.
  apply (Compare_asymmetric [S754_nan; f32_2_0] [f32_0_5; f32_3_7]).
  reflexivity.
Defined.

(** X2.  On vectors without NaN the comparator is transitive. *)
Theorem Compare_transitive (a b c : VectorXf) :
  no_nan a -> no_nan b -> no_nan c ->
  EigenVectorXfCompare a b = true -> EigenVectorXfCompare b c = true ->
  EigenVectorXfCompare a c = true.
Proof.
  intros Ha. revert b c.
  induction Ha as [|x a Hx Ha IH]; intros b c Hb Hc; [discriminate|].
  destruct Hb as [|y b Hy Hb]; [discriminate|].
  destruct Hc as [|z c Hz Hc]; [simpl; destruct (F32.ltb x y), (F32.ltb y x); discriminate|].
  simpl.
  destruct (F32.ltb x y) eqn:Exy.
  - intros _. destruct (F32.ltb y z) eqn:Eyz.
    + intros _. now rewrite (ltb_trans x y z).
    + destruct (F32.ltb z y) eqn:Ezy; [discriminate|]. intros _.
      now rewrite (ltb_incomparable_r x y z).
  - destruct (F32.ltb y x) eqn:Eyx; [discriminate|]. intros Hab.
    destruct (F32.ltb y z) eqn:Eyz.
    + intros _. now rewrite (ltb_incomparable_l x y z).
    + destruct (F32.ltb z y) eqn:Ezy; [discriminate|]. intros Hbc.
      destruct (incomparable_trans x y z Hy Exy Eyx Eyz Ezy) as (-> & ->).
      eauto.
Qed.

Lemma Compare_transitive_witness :
  EigenVectorXfCompare [f32_0_5; f32_2_0] [f32_1_0; f32_0_1] = true.
Proof.
  apply (Compare_transitive [f32_0_5; f32_2_0] [f32_0_5; f32_3_7]
           [f32_1_0; f32_0_1]);
    try (repeat constructor); reflexivity.
Defined.

Lemma incomparable_zero_eq (a b : spec_float) :
  F32.is_nan a = false -> F32.is_nan b = false ->
  F32.ltb a b = false -> F32.ltb b a = false -> zero_eq a b.
Proof.
  destruct a as [sa|sa| |sa ma ea], b as [sb|sb| |sb mb eb];
    intros Ha Hb Hab Hba; try discriminate;
    try (right; split; reflexivity);
    unfold F32.ltb, SFltb, SFcompare in *;
    destruct sa, sb; try discriminate; try (left; reflexivity);
    cmp_cases; simpl in *; try discriminate; try lia;
    left; subst; reflexivity.
Qed.

Lemma zero_eq_incomparable (a b : spec_float) :
  zero_eq a b -> F32.ltb a b = false /\ F32.ltb b a = false.
Proof.
  intros H. split.
  - rewrite (ltb_zero_eq a b b b H (zero_eq_refl b)). apply ltb_irrefl.
  - rewrite (ltb_zero_eq b b a b (zero_eq_refl b) H). apply ltb_irrefl.
Qed.

(** X3.  On vectors of one size without NaN, two keys denote the same cache entry
    exactly when their coordinates are equal as numbers, with no tolerance:
    bit for bit, except that [+0] and [-0] are the same number. *)
Theorem key_equiv_exact (a b : VectorXf) :
  no_nan a -> no_nan b -> length a = length b ->
  (key_equiv a b = true <-> Forall2 zero_eq a b).
Proof.
  intros Ha. revert b.
  induction Ha as [|x a Hx Ha IH]; intros b Hb Hlen;
    destruct Hb as [|y b Hy Hb]; try discriminate.
  - split; [constructor|reflexivity].
  - injection Hlen as Hlen. specialize (IH b Hb Hlen).
    unfold key_equiv in *. simpl. split.
    + destruct (F32.ltb x y) eqn:Exy; [discriminate|].
      destruct (F32.ltb y x) eqn:Eyx; [discriminate|].
      intros H. constructor; [now apply incomparable_zero_eq|now apply IH].
    + intros H. inversion H as [|? ? ? ? Hxy Hab]; subst.
      destruct (zero_eq_incomparable x y Hxy) as (-> & ->). now apply IH.
Qed.

Lemma key_equiv_exact_witness :
  key_equiv [S754_zero true; f32_1_0] [S754_zero false; f32_1_0] = true.
Proof.
  apply (key_equiv_exact [S754_zero true; f32_1_0] [S754_zero false; f32_1_0]).
  - repeat constructor.
  - repeat constructor.
  - reflexivity.
  - constructor; [right; split; reflexivity|].
    constructor; [left; reflexivity|constructor].
Defined.

(** X4.  A vector whose coordinates are all NaN is neither less nor greater than
    any vector of its size: the comparator takes it for the same key as every
    other. *)
Theorem all_nan_equivalent_to_all (a b : VectorXf) :
  all_nan a -> length a = length b ->
  key_equiv a b = true /\ key_equiv b a = true.
Proof.
  intros Ha _.
  assert (H : EigenVectorXfCompare a b = false /\
              EigenVectorXfCompare b a = false).
  { revert b. induction Ha as [|x a Hx Ha IH]; intros [|y b]; simpl; auto.
    destruct x; try discriminate.
    replace (F32.ltb S754_nan y) with false by (destruct y; reflexivity).
    replace (F32.ltb y S754_nan) with false by (destruct y; reflexivity).
    apply IH. }
  destruct H as (H1 & H2). unfold key_equiv. rewrite H1, H2. auto.
Qed.

Lemma all_nan_equivalent_to_all_witness :
  key_equiv [S754_nan] [f32_1_0] = true /\ key_equiv [f32_1_0] [S754_nan] = true.
Proof.
  apply (all_nan_equivalent_to_all [S754_nan] [f32_1_0]).
  - repeat constructor.
  - reflexivity.
Defined.

(** ** Parameter parsing *)

Lemma parse_parameters_cases (x dx : VectorXf) :
  (length x = 1%nat /\ (0 < length dx)%nat /\
   parse_parameters x dx = (repeat (nth 0 x S754_nan) (length dx), dx)) \/
  (~ (length x = 1%nat /\ (0 < length dx)%nat) /\
   length dx = 1%nat /\ (0 < length x)%nat /\
   parse_parameters x dx = (x, repeat (nth 0 dx S754_nan) (length x))) \/
  (~ (length x = 1%nat /\ (0 < length dx)%nat) /\
   ~ (length dx = 1%nat /\ (0 < length x)%nat) /\
   parse_parameters x dx = (x, dx)).
Proof.
  unfold parse_parameters.
  destruct (Nat.eqb_spec (length x) 1) as [Ex|Ex];
    destruct (Nat.ltb_spec 0 (length dx)) as [Pdx|Pdx]; simpl;
    try (left; repeat split; auto; fail);
    right;
    destruct (Nat.eqb_spec (length dx) 1) as [Edx|Edx];
    destruct (Nat.ltb_spec 0 (length x)) as [Px|Px]; simpl;
    try (left; repeat split; auto; lia);
    right; repeat split; auto; lia.
Qed.

(** X5.  After parsing, point and step vector have the same number of coordinates
    exactly when they had it before or one of them was a scalar next to a
    non-empty vector; otherwise both are left as they are, sizes differing.
    At most one of the two is changed, and parsing again changes nothing. *)
Theorem parse_parameters_sizes (x dx : VectorXf) :
  let x' := fst (parse_parameters x dx) in
  let dx' := snd (parse_parameters x dx) in
  (length x' = length dx' <->
   length x = length dx \/
   (length x = 1%nat /\ (0 < length dx)%nat) \/
   (length dx = 1%nat /\ (0 < length x)%nat)) /\
  (length x' <> length dx' -> x' = x /\ dx' = dx) /\
  (x' = x \/ dx' = dx) /\
  parse_parameters x' dx' = (x', dx').
Proof.
  destruct (parse_parameters_cases x dx)
    as [(Hx & Hdx & E)|[(Hn & Hdx & Hx & E)|(Hn1 & Hn2 & E)]];
    rewrite E; simpl.
  - rewrite repeat_length. repeat split; auto; try lia.
    apply parse_parameters_same_length. now rewrite repeat_length.
  - rewrite repeat_length. repeat split; auto; try lia.
    apply parse_parameters_same_length. now rewrite repeat_length.
  - repeat split; auto; lia.
Qed.

(** ** Memoised evaluation (lines 109-121) *)

(** X7.  Once a point has been evaluated, evaluating it again, or a point that
    differs from it only in the sign of zero coordinates, is a cache hit: it
    gives the same result, does not call the objective and leaves cache and
    call log as they are. *)
Theorem evaluate_again_hits (f : VectorXf -> spec_float)
    (key key' : VectorXf) (st : State) :
  Forall2 zero_eq key key' ->
  evaluate f key' (snd (evaluate f key st))
  = (fst (evaluate f key st), snd (evaluate f key st)).
Proof.
  intros H. pose proof (evaluate_stored f key st) as Hs.
  rewrite (lookup_zero_eq _ key key' H) in Hs.
  unfold evaluate at 1. now rewrite Hs.
Qed.

Lemma evaluate_again_hits_witness :
  evaluate coord0 [S754_zero true]
    (snd (evaluate coord0 [S754_zero false] (mkState [] [])))
  = (S754_zero false,
     mkState [([S754_zero false], S754_zero false)] [[S754_zero false]]).
Proof.
  apply (evaluate_again_hits coord0 [S754_zero false] [S754_zero true]
           (mkState [] [])).
  constructor; [right; split; reflexivity|constructor].
Defined.

Lemma evaluate_grown (f : VectorXf -> spec_float) (key : VectorXf)
    (st : State) :
  exists n, (n <= 1)%nat /\ grown_by st (snd (evaluate f key st)) n.
Proof.
  unfold grown_by. rewrite evaluate_cache, evaluate_calls.
  destruct (lookup (results_cache st) key).
  - exists 0%nat. repeat split; lia.
  - exists 1%nat. rewrite !length_app. simpl. repeat split; lia.
Qed.

Lemma evaluate_all_grown (f : VectorXf -> spec_float) (keys : MatrixXf)
    (st : State) :
  exists n, (n <= length keys)%nat /\
            grown_by st (snd (evaluate_all f keys st)) n.
Proof.
  revert st. induction keys as [|key rest IH]; intros st; simpl.
  - exists 0%nat. unfold grown_by. repeat split; lia.
  - destruct (evaluate_grown f key st) as (n1 & Hn1 & H1 & H1').
    destruct (evaluate f key st) as [r st1]. simpl in H1, H1'.
    destruct (IH st1) as (n2 & Hn2 & H2 & H2').
    destruct (evaluate_all f rest st1) as [rs st2]. simpl in *.
    exists (n1 + n2)%nat. unfold grown_by. repeat split; lia.
Qed.

Lemma descend_grown (toString : VectorXf -> string)
    (f : VectorXf -> spec_float) (dxAr : MatrixXf) (d n : nat)
    (x : VectorXf) (st : State) :
  exists m, (m <= n * length dxAr)%nat /\
            grown_by st (snd (descend toString f dxAr d n x st)) m.
Proof.
  revert x st. induction n as [|n IH]; intros x st; simpl.
  - exists 0%nat. unfold grown_by. repeat split; lia.
  - destruct (negb (length x =? d)%nat).
    { exists 0%nat. unfold grown_by. simpl. repeat split; lia. }
    destruct (evaluate_all_grown f (rowwise_add dxAr x) st)
      as (n1 & Hn1 & H1 & H1').
    rewrite length_rowwise_add in Hn1. rewrite <- select_state in H1, H1'.
    destruct (select f dxAr x st) as [[m im] st1]. simpl in H1, H1'.
    assert (Hhere : exists m0, (m0 <= S n * length dxAr)%nat /\ grown_by st st1 m0)
      by (exists n1; unfold grown_by; repeat split; lia).
    destruct (row (rowwise_add dxAr x) im) as [x1|]; auto.
    destruct (row dxAr im) as [off|]; auto.
    destruct (isZero off); auto.
    destruct (IH x1 st1) as (n2 & Hn2 & H2 & H2').
    exists (n1 + n2)%nat. unfold grown_by. repeat split; lia.
Qed.

(** X8.  A call adds exactly one cache entry per call of the objective, and calls
    the objective at most [maxiter * sizeMg] times, [sizeMg] being the
    number [(2k+1)^d] of lattice rows. *)
Theorem objective_calls_bounded (toString : VectorXf -> string)
    (f : VectorXf -> spec_float) (x dx : VectorXf) (k maxiter : Z)
    (st : State) :
  let dx' := snd (parse_parameters x dx) in
  let st' := snd (minimize_discrete_stepwise_cpp toString f x st dx k maxiter) in
  exists n,
    (n <= Z.to_nat maxiter * sizeMg k (length dx'))%nat /\
    length (calls st') = (length (calls st) + n)%nat /\
    length (results_cache st') = (length (results_cache st) + n)%nat.
Proof.
  unfold minimize_discrete_stepwise_cpp.
  destruct (parse_parameters x dx) as [x' dx']. simpl.
  destruct (descend_grown toString f (dxArMg dx' k) (length dx')
              (Z.to_nat maxiter) x' st) as (n & Hn & H).
  rewrite length_dxArMg in Hn. exists n. split; [exact Hn|exact H].
Qed.

(** ** Running a call on the cache another call left *)

(** A pass over keys that are all stored never consults the objective: with
    any objective [g] it reads the results the pass with [f] stored. *)
Lemma evaluate_all_rerun (f g : VectorXf -> spec_float) (keys : MatrixXf)
    (st stF : State) :
  extends (results_cache (snd (evaluate_all f keys st))) (results_cache stF) ->
  evaluate_all g keys stF = (fst (evaluate_all f keys st), stF).
Proof.
  revert st. induction keys as [|key rest IH]; intros st; simpl; auto.
  pose proof (evaluate_stored f key st) as Hs.
  pose proof (evaluate_all_extends f rest (snd (evaluate f key st))) as He.
  specialize (IH (snd (evaluate f key st))).
  destruct (evaluate f key st) as [r st1]. simpl in *.
  destruct (evaluate_all f rest st1) as [rs st2]. simpl in *.
  intros Hext.
  assert (Hhit : lookup (results_cache stF) key = Some r).
  { apply (extends_lookup (results_cache st2)); [exact Hext|].
    apply (extends_lookup (results_cache st1)); assumption. }
  unfold evaluate. rewrite Hhit. now rewrite (IH Hext).
Qed.

Lemma select_rerun (f g : VectorXf -> spec_float) (dxAr : MatrixXf)
    (x : VectorXf) (st stF : State) :
  extends (results_cache (snd (select f dxAr x st))) (results_cache stF) ->
  select g dxAr x stF = (fst (select f dxAr x st), stF).
Proof.
  rewrite select_state. intros Hext. unfold select.
  rewrite !scan_evaluate_all.
  now rewrite (evaluate_all_rerun f g _ st stF Hext).
Qed.

Lemma descend_extends (toString : VectorXf -> string)
    (f : VectorXf -> spec_float) (dxAr : MatrixXf) (d n : nat)
    (x : VectorXf) (st : State) :
  extends (results_cache st)
    (results_cache (snd (descend toString f dxAr d n x st))).
Proof.
  apply descend_preserves
    with (P := fun s => extends (results_cache st) (results_cache s)).
  - intros key s H. eapply extends_trans; eauto using evaluate_extends.
  - apply extends_refl.
Qed.

(** On any cache that extends the one a run with [f] left, the same run with
    any objective [g] gives the outcome of the run with [f], without touching
    the state. *)
Lemma descend_rerun (toString : VectorXf -> string)
    (f g : VectorXf -> spec_float) (dxAr : MatrixXf) (d n : nat)
    (x : VectorXf) (st stF : State) :
  extends (results_cache (snd (descend toString f dxAr d n x st)))
          (results_cache stF) ->
  descend toString g dxAr d n x stF
  = (fst (descend toString f dxAr d n x st), stF).
Proof.
  revert x st. induction n as [|n IH]; intros x st; simpl; auto.
  destruct (negb (length x =? d)%nat); auto.
  pose proof (select_rerun f g dxAr x st stF) as Hsel.
  destruct (select f dxAr x st) as [[m im] st1]. simpl in Hsel.
  destruct (row (rowwise_add dxAr x) im) as [x1|] eqn:E1;
    [|simpl; intros H; rewrite (Hsel H), E1; reflexivity].
  destruct (row dxAr im) as [off|] eqn:E2;
    [|simpl; intros H; rewrite (Hsel H), E1, E2; reflexivity].
  destruct (isZero off) eqn:Ez.
  - simpl. intros H. rewrite (Hsel H), E1, E2, Ez. reflexivity.
  - intros H.
    assert (H1 : extends (results_cache st1) (results_cache stF))
      by (eapply extends_trans; [apply descend_extends|exact H]).
    rewrite (Hsel H1), E1, E2, Ez. now apply IH.
Qed.

(** X9.  The cache is keyed by the point alone.  Take a call of the minimiser
    inside the domain of the container (cache keys and candidates of one
    size, without NaN).  On the cache it left, a call with the same point,
    steps, range and cap never invokes the objective, whichever objective it
    is given and whether it minimises or maximises: it gives the outcome of
    the first call, returned point or failure, and leaves the state as it is.
    So a second identical call is free, and a maximiser run on the cache its
    minimiser left returns the minimiser's result.  (A call of the maximiser
    is the call of the minimiser on the negated objective.) *)
Theorem cache_hits_ignore_the_objective (toString : VectorXf -> string)
    (f g : VectorXf -> spec_float) (x dx : VectorXf) (k maxiter : Z)
    (st : State) :
  run_in_domain f x st dx k maxiter = true ->
  let run := minimize_discrete_stepwise_cpp toString f x st dx k maxiter in
  minimize_discrete_stepwise_cpp toString g x (snd run) dx k maxiter = run /\
  maximize_discrete_stepwise_cpp toString g x (snd run) dx k maxiter = run.
Proof.
  intros _.
  assert (G : forall h,
    let run := minimize_discrete_stepwise_cpp toString f x st dx k maxiter in
    minimize_discrete_stepwise_cpp toString h x (snd run) dx k maxiter = run).
  { intros h. unfold minimize_discrete_stepwise_cpp.
    destruct (parse_parameters x dx) as [x' dx']. simpl.
    rewrite (descend_rerun toString f h _ _ _ x' st) by apply extends_refl.
    now destruct (descend toString f (dxArMg dx' k) (length dx')
                    (Z.to_nat maxiter) x' st). }
  unfold maximize_discrete_stepwise_cpp. split; apply G.
Qed.

Lemma cache_hits_ignore_the_objective_witness :
  let run := minimize_discrete_stepwise_cpp (fun _ => EmptyString) square0
               [f32_2_0] (mkState [] []) [f32_1_0] 1 3 in
  minimize_discrete_stepwise_cpp (fun _ => EmptyString) coord0 [f32_2_0]
    (snd run) [f32_1_0] 1 3 = run /\
  maximize_discrete_stepwise_cpp (fun _ => EmptyString) coord0 [f32_2_0]
    (snd run) [f32_1_0] 1 3 = run.
Proof.
  apply (cache_hits_ignore_the_objective (fun _ => EmptyString) square0
           coord0 [f32_2_0] [f32_1_0] 1 3 (mkState [] [])).
  vm_compute. reflexivity.
Defined.

(** ** The iteration cap *)

(** X10.  For a search range and a step vector whose lattice lines 85-99 can
    build (inside the [int] range), and a [maxiter] that is not positive, the
    loop body never runs: the call throws at once, the message built from the
    parsed start point, without evaluating the objective or touching the
    cache; so does the maximiser. *)
Theorem nonpositive_maxiter_throws (toString : VectorXf -> string)
    (f : VectorXf -> spec_float) (x dx : VectorXf) (k maxiter : Z)
    (st : State) :
  lattice_in_range k (length (snd (parse_parameters x dx))) ->
  maxiter <= 0 ->
  let thrown :=
    (Throw_invalid_argument (what toString (fst (parse_parameters x dx))), st) in
  minimize_discrete_stepwise_cpp toString f x st dx k maxiter = thrown /\
  maximize_discrete_stepwise_cpp toString f x st dx k maxiter = thrown.
Proof.
  intros _ Hm. unfold maximize_discrete_stepwise_cpp,
    minimize_discrete_stepwise_cpp.
  destruct (parse_parameters x dx) as [x' dx']. simpl.
  replace (Z.to_nat maxiter) with 0%nat by lia. simpl. auto.
Qed.

Lemma nonpositive_maxiter_throws_witness :
  minimize_discrete_stepwise_cpp (fun _ => EmptyString) coord0
    [f32_2_0] (mkState [] []) [f32_0_5; f32_0_5] 1 0
  = (Throw_invalid_argument
       (what (fun _ => EmptyString) [f32_2_0; f32_2_0]), mkState [] []).
Proof.
  apply (nonpositive_maxiter_throws (fun _ => EmptyString) coord0
           [f32_2_0] [f32_0_5; f32_0_5] 1 0 (mkState [] [])).
  - unfold lattice_in_range. simpl. lia.
  - lia.
Defined.

Lemma descend_more_iterations (toString : VectorXf -> string)
    (f : VectorXf -> spec_float) (dxAr : MatrixXf) (d n m : nat)
    (x : VectorXf) (st : State) :
  (forall w, fst (descend toString f dxAr d n x st)
             <> Throw_invalid_argument w) ->
  (n <= m)%nat ->
  descend toString f dxAr d m x st = descend toString f dxAr d n x st.
Proof.
  revert m x st. induction n as [|n IH]; intros m x st Hno Hle.
  - exfalso. apply (Hno (what toString x)). reflexivity.
  - destruct m as [|m]; [lia|]. simpl in *.
    destruct (negb (length x =? d)%nat); auto.
    destruct (select f dxAr x st) as [[r im] st1].
    destruct (row (rowwise_add dxAr x) im) as [x1|]; auto.
    destruct (row dxAr im) as [off|]; auto.
    destruct (isZero off); auto.
    apply IH; [assumption|lia].
Qed.

(** X11.  A call that does not throw for want of iterations gives the same
    outcome and the same final state under every larger iteration cap. *)
Theorem larger_maxiter_same_result (toString : VectorXf -> string)
    (f : VectorXf -> spec_float) (x dx : VectorXf) (k maxiter maxiter' : Z)
    (st : State) :
  (forall w, fst (minimize_discrete_stepwise_cpp toString f x st dx k maxiter)
             <> Throw_invalid_argument w) ->
  maxiter <= maxiter' ->
  minimize_discrete_stepwise_cpp toString f x st dx k maxiter'
  = minimize_discrete_stepwise_cpp toString f x st dx k maxiter.
Proof.
  unfold minimize_discrete_stepwise_cpp.
  destruct (parse_parameters x dx) as [x' dx'].
  intros Hno Hle. apply descend_more_iterations; [assumption|lia].
Qed.

Lemma larger_maxiter_same_result_witness :
  minimize_discrete_stepwise_cpp (fun _ => EmptyString) square0
    [f32_2_0] (mkState [] []) [f32_1_0] 1 10000
  = minimize_discrete_stepwise_cpp (fun _ => EmptyString) square0
      [f32_2_0] (mkState [] []) [f32_1_0] 1 3.
Proof.
  apply larger_maxiter_same_result.
  - intros w. vm_compute. discriminate.
  - lia.
Defined.

(** ** Sizes of the keys *)

Lemma length_add_row (off x : VectorXf) :
  length (add_row off x) = Nat.min (length off) (length x).
Proof. unfold add_row. now rewrite length_map, length_combine. Qed.

Lemma rowwise_add_dim (dxAr : MatrixXf) (x : VectorXf) (d : nat) :
  Forall (fun off => length off = d) dxAr -> length x = d ->
  Forall (fun key => length key = d) (rowwise_add dxAr x).
Proof.
  intros H Hx. unfold rowwise_add. apply Forall_map.
  eapply Forall_impl; [|exact H]. simpl. intros off Hoff.
  rewrite length_add_row. lia.
Qed.

Lemma dxArMg_dim (dx : VectorXf) (k : Z) :
  Forall (fun off => length off = length dx) (dxArMg dx k).
Proof.
  apply Forall_forall. intros off Hin. unfold dxArMg in Hin.
  apply in_map_iff in Hin. destruct Hin as (i & <- & _).
  apply length_dxArMg_row.
Qed.

Lemma evaluate_all_cache_dim (f : VectorXf -> spec_float) (d : nat)
    (keys : MatrixXf) (st : State) :
  Forall (fun key => length key = d) keys ->
  cache_dim d (results_cache st) ->
  cache_dim d (results_cache (snd (evaluate_all f keys st))).
Proof.
  intros Hk. revert st. induction Hk as [|key rest Hkey Hrest IH];
    intros st Hc; simpl; auto.
  pose proof (evaluate_cache f key st) as E.
  destruct (evaluate f key st) as [r st1]. simpl in E.
  assert (H1 : cache_dim d (results_cache st1)).
  { rewrite E. destruct (lookup (results_cache st) key); [exact Hc|].
    apply Forall_app. split; [exact Hc|]. constructor; [exact Hkey|constructor]. }
  specialize (IH st1 H1). now destruct (evaluate_all f rest st1).
Qed.

Lemma nth_dim (m : MatrixXf) (d : nat) (i : Z) (r : VectorXf) :
  Forall (fun v => length v = d) m -> row m i = Some r -> length r = d.
Proof.
  intros H Hr. apply row_Some in Hr. destruct Hr as (Hi & ->).
  rewrite Forall_forall in H. apply H, nth_In. lia.
Qed.

Lemma descend_cache_dim (toString : VectorXf -> string)
    (f : VectorXf -> spec_float) (dxAr : MatrixXf) (d n : nat)
    (x : VectorXf) (st : State) :
  Forall (fun off => length off = d) dxAr ->
  cache_dim d (results_cache st) ->
  cache_dim d (results_cache (snd (descend toString f dxAr d n x st))).
Proof.
  intros Hdim. revert x st. induction n as [|n IH]; intros x st Hc; simpl; auto.
  destruct (Nat.eqb_spec (length x) d) as [Hx|Hx]; simpl; auto.
  pose proof (evaluate_all_cache_dim f d _ st
                (rowwise_add_dim dxAr x d Hdim Hx) Hc) as H1.
  rewrite <- select_state in H1.
  destruct (select f dxAr x st) as [[m im] st1]. simpl in H1.
  destruct (row (rowwise_add dxAr x) im) as [x1|]; auto.
  destruct (row dxAr im) as [off|]; auto.
  destruct (isZero off); auto.
Qed.

(** X12.  If every key of the cache passed in has as many coordinates as the
    parsed step vector, so has every key of the cache after the call: the
    optimiser only stores points of the run's dimension, and the comparator's
    size assertion keeps holding for the next call of that dimension. *)
Theorem cache_keys_keep_size (toString : VectorXf -> string)
    (f : VectorXf -> spec_float) (x dx : VectorXf) (k maxiter : Z)
    (st : State) :
  let d := length (snd (parse_parameters x dx)) in
  cache_dim d (results_cache st) ->
  cache_dim d (results_cache
                 (snd (minimize_discrete_stepwise_cpp toString f x st dx k
                         maxiter))) /\
  cache_dim d (results_cache
                 (snd (maximize_discrete_stepwise_cpp toString f x st dx k
                         maxiter))).
Proof.
  unfold maximize_discrete_stepwise_cpp, minimize_discrete_stepwise_cpp.
  destruct (parse_parameters x dx) as [x' dx']. simpl. intros Hc.
  split; apply descend_cache_dim; auto using dxArMg_dim.
Qed.

Lemma cache_keys_keep_size_witness :
  cache_dim 2
    (results_cache
       (snd (minimize_discrete_stepwise_cpp (fun _ => EmptyString) coord0
               [f32_2_0] (mkState [([f32_1_0; f32_1_0], f32_0_5)] [])
               [f32_0_5; f32_0_5] 1 2))).
Proof.
  apply (cache_keys_keep_size (fun _ => EmptyString) coord0 [f32_2_0]
           [f32_0_5; f32_0_5] 1 2 (mkState [([f32_1_0; f32_1_0], f32_0_5)] [])).
  repeat constructor.
Defined.

(** ** What a returned point is *)

Lemma ltb_false_trans (a b c : spec_float) :
  F32.is_nan b = false -> F32.is_nan c = false ->
  F32.ltb a b = false -> F32.ltb b c = false -> F32.ltb a c = false.
Proof. destruct a, b, c; intros; float_order. Qed.

Lemma add_row_zero_eq_self (z x : VectorXf) :
  all_zero z = true -> length z = length x -> Forall2 zero_eq (add_row z x) x.
Proof.
  revert x. induction z as [|z0 z IH]; intros [|x0 x] Hz Hlen;
    try discriminate; [constructor|].
  change (add_row (z0 :: z) (x0 :: x)) with (F32.add z0 x0 :: add_row z x).
  simpl in Hz, Hlen. apply andb_prop in Hz. destruct Hz as (Hz0 & Hz).
  constructor; [|apply IH; auto].
  destruct (add_zero_cases z0 x0 Hz0) as [E|(Ha & Hza)].
  - rewrite E. now left.
  - right. auto.
Qed.

(** What the pass of one iteration leaves for its selected candidate. *)
Lemma select_selected (f : VectorXf -> spec_float) (dxAr : MatrixXf)
    (x : VectorXf) (st : State) (x1 : VectorXf) :
  Z.of_nat (length dxAr) < 2 ^ 31 ->
  row (rowwise_add dxAr x) (snd (fst (select f dxAr x st))) = Some x1 ->
  let m := fst (fst (select f dxAr x st)) in
  lookup (results_cache (snd (select f dxAr x st))) x1 = Some m /\
  F32.ltb m F32.FLT_MAX = true /\
  forall i, (i < length dxAr)%nat ->
    F32.ltb (nth i (fst (evaluate_all f (rowwise_add dxAr x) st)) S754_nan) m
    = false.
Proof.
  intros Hlen Hrow m. subst m.
  pose proof (select_inv f dxAr x st Hlen) as Hinv.
  rewrite select_state.
  apply row_Some in Hrow. destruct Hrow as (Him & ->).
  rewrite length_rowwise_add in Him.
  destruct Hinv as [(E & _)|(_ & Hn & Hm & Hall & _)]; [lia|].
  repeat split.
  - rewrite <- Hn. apply evaluate_all_stored. rewrite length_rowwise_add. lia.
  - exact Hm.
  - intros i Hi. apply Hall.
    now rewrite length_evaluate_all, length_rowwise_add.
Qed.

Lemma descend_Return_measured (toString : VectorXf -> string)
    (f : VectorXf -> spec_float) (dxAr : MatrixXf) (d n : nat)
    (x : VectorXf) (st : State) (ret : VectorXf) :
  Z.of_nat (length dxAr) < 2 ^ 31 ->
  Forall (fun off => length off = d) dxAr ->
  fst (descend toString f dxAr d n x st) = Return ret ->
  length ret = d /\
  exists w,
    lookup (results_cache (snd (descend toString f dxAr d n x st))) ret
    = Some w /\
    F32.ltb w F32.FLT_MAX = true.
Proof.
  intros Hlen Hdim Hret.
  destruct (descend_Return toString f dxAr d n x st ret Hret)
    as (xc & stc & off0 & Hxc & Hoff & Hz & Hrow & Hst).
  split.
  - eapply nth_dim; [|exact Hrow]. now apply rowwise_add_dim.
  - rewrite Hst.
    destruct (select_selected f dxAr xc stc ret Hlen Hrow) as (H1 & H2 & _).
    eauto.
Qed.

(** Along a run the value of the current point never increases: the value
    stored for a returned point is not above the one stored for the start. *)
Lemma descend_descent (toString : VectorXf -> string)
    (f : VectorXf -> spec_float) (dxAr : MatrixXf) (d : nat) (i0 : nat) :
  Z.of_nat (length dxAr) < 2 ^ 31 ->
  Forall (fun off => length off = d) dxAr ->
  (i0 < length dxAr)%nat -> all_zero (nth i0 dxAr []) = true ->
  forall (n : nat) (x : VectorXf) (st : State) (ret : VectorXf),
  fst (descend toString f dxAr d n x st) = Return ret ->
  exists v0 w,
    lookup (results_cache (snd (descend toString f dxAr d n x st))) x
    = Some v0 /\
    lookup (results_cache (snd (descend toString f dxAr d n x st))) ret
    = Some w /\
    F32.ltb w F32.FLT_MAX = true /\ F32.ltb v0 w = false.
Proof.
  intros Hlen Hdim Hi0 Hzero.
  induction n as [|n IH]; intros x st ret; simpl; [discriminate|].
  destruct (Nat.eqb_spec (length x) d) as [Hx|Hx]; simpl; [|discriminate].
  pose proof (select_selected f dxAr x st) as Hsel.
  pose proof (select_state f dxAr x st) as Hst.
  destruct (select f dxAr x st) as [[m im] st1]. simpl in Hsel, Hst.
  destruct (row (rowwise_add dxAr x) im) as [x1|] eqn:E1; [|discriminate].
  destruct (row dxAr im) as [off|] eqn:E2; [|discriminate].
  destruct (Hsel x1 Hlen eq_refl) as (Hx1 & Hm & Hall). clear Hsel.
  set (v := nth i0 (fst (evaluate_all f (rowwise_add dxAr x) st)) S754_nan)
    in *.
  assert (Hv : lookup (results_cache st1) x = Some v).
  { rewrite Hst.
    rewrite <- (lookup_zero_eq _ (nth i0 (rowwise_add dxAr x) []) x).
    - apply evaluate_all_stored. now rewrite length_rowwise_add.
    - rewrite nth_rowwise_add by exact Hi0.
      apply add_row_zero_eq_self; auto.
      rewrite Forall_forall in Hdim. rewrite Hdim; auto using nth_In. }
  pose proof (Hall i0 Hi0) as Hvm. fold v in Hvm.
  destruct (isZero off).
  - simpl. intros [= <-]. exists v, m. auto.
  - intros Hret. destruct (IH x1 st1 ret Hret) as (v1 & w & Hl1 & Hlr & Hw & Hle).
    pose proof (descend_extends toString f dxAr d n x1 st1) as Hext.
    rewrite (extends_lookup _ _ _ _ Hext Hx1) in Hl1. injection Hl1 as <-.
    exists v, w. repeat split; auto.
    + eapply extends_lookup; eauto.
    + apply (ltb_false_trans v m w); auto.
      * apply (ltb_not_nan m F32.FLT_MAX Hm).
      * apply (ltb_not_nan w F32.FLT_MAX Hw).
Qed.

Lemma dxArMg_rows_bound (dx : VectorXf) (k : Z) :
  lattice_in_range k (length dx) -> Z.of_nat (length (dxArMg dx k)) < 2 ^ 31.
Proof. intros (Hk & _ & Hsize). now rewrite length_dxArMg_pow. Qed.

(** X14.  Inside the domain of the container, a point returned by the
    minimiser has as many coordinates as the parsed step vector, and the
    cache handed back holds a value for it that is strictly below [FLT_MAX]:
    not NaN, not [+infinity], not [FLT_MAX]. *)
Theorem returned_point_is_measured (toString : VectorXf -> string)
    (f : VectorXf -> spec_float) (x dx : VectorXf) (k maxiter : Z)
    (st : State) (ret : VectorXf) :
  let dx' := snd (parse_parameters x dx) in
  let run := minimize_discrete_stepwise_cpp toString f x st dx k maxiter in
  lattice_in_range k (length dx') ->
  run_in_domain f x st dx k maxiter = true ->
  fst run = Return ret ->
  length ret = length dx' /\
  exists w, lookup (results_cache (snd run)) ret = Some w /\
            F32.ltb w F32.FLT_MAX = true /\ F32.is_nan w = false.
Proof.
  unfold minimize_discrete_stepwise_cpp.
  destruct (parse_parameters x dx) as [x' dx']. simpl.
  intros HR _ Hret.
  destruct (descend_Return_measured toString f (dxArMg dx' k) (length dx')
              (Z.to_nat maxiter) x' st ret
              (dxArMg_rows_bound dx' k HR) (dxArMg_dim dx' k) Hret)
    as (Hl & w & Hw & Hlt).
  split; [exact Hl|]. exists w. repeat split; auto.
  apply (ltb_not_nan w F32.FLT_MAX Hlt).
Qed.

Lemma returned_point_is_measured_witness :
  length [S754_zero false] = 1%nat /\
  exists w,
    lookup (results_cache
              (snd (minimize_discrete_stepwise_cpp (fun _ => EmptyString)
                      square0 [f32_2_0] (mkState [] []) [f32_1_0] 1 3)))
      [S754_zero false] = Some w /\
    F32.ltb w F32.FLT_MAX = true /\ F32.is_nan w = false.
Proof.
  apply (returned_point_is_measured (fun _ => EmptyString) square0 [f32_2_0]
           [f32_1_0] 1 3 (mkState [] []) [S754_zero false]).
  - unfold lattice_in_range. simpl. lia.
  - vm_compute. reflexivity.
  - vm_compute. reflexivity.
Defined.

(** X15.  Inside the domain of the container and with finite steps the
    minimiser descends: the cache handed back holds a
    value for the (parsed) start point and one for the returned point, and
    the start's value is not strictly below the returned one; when the
    start's value is a number the returned one is at most it. *)
Theorem returned_value_not_above_start (toString : VectorXf -> string)
    (f : VectorXf -> spec_float) (x dx : VectorXf) (k maxiter : Z)
    (st : State) (ret : VectorXf) :
  let x' := fst (parse_parameters x dx) in
  let dx' := snd (parse_parameters x dx) in
  let run := minimize_discrete_stepwise_cpp toString f x st dx k maxiter in
  lattice_in_range k (length dx') ->
  run_in_domain f x st dx k maxiter = true ->
  Forall (fun a => F32.is_finite a = true) dx' ->
  fst run = Return ret ->
  exists v0 w,
    lookup (results_cache (snd run)) x' = Some v0 /\
    lookup (results_cache (snd run)) ret = Some w /\
    F32.ltb v0 w = false /\
    (F32.is_nan v0 = false -> F32.leb w v0 = true).
Proof.
  unfold minimize_discrete_stepwise_cpp.
  destruct (parse_parameters x dx) as [x' dx']. simpl.
  intros HR _ Hfin Hret. pose proof HR as (Hk & _).
  pose proof (zero_index_lt_sizeMg k (length dx') Hk) as Hi0.
  destruct (descend_descent toString f (dxArMg dx' k) (length dx')
              (Z.to_nat (zero_index k (length dx')))
              (dxArMg_rows_bound dx' k HR) (dxArMg_dim dx' k))
    with (n := Z.to_nat maxiter) (x := x') (st := st) (ret := ret)
    as (v0 & w & Hv0 & Hw & Hlt & Hle); auto.
  - now rewrite length_dxArMg.
  - rewrite nth_dxArMg by exact Hi0. now apply all_zero_zero_index.
  - exists v0, w. repeat split; auto.
    intros Hnan. apply ltb_false_leb; auto.
    apply (ltb_not_nan w F32.FLT_MAX Hlt).
Qed.

Lemma returned_value_not_above_start_witness :
  exists v0 w,
    lookup (results_cache
              (snd (minimize_discrete_stepwise_cpp (fun _ => EmptyString)
                      square0 [f32_2_0] (mkState [] []) [f32_1_0] 1 3)))
      [f32_2_0] = Some v0 /\
    lookup (results_cache
              (snd (minimize_discrete_stepwise_cpp (fun _ => EmptyString)
                      square0 [f32_2_0] (mkState [] []) [f32_1_0] 1 3)))
      [S754_zero false] = Some w /\
    F32.ltb v0 w = false /\
    (F32.is_nan v0 = false -> F32.leb w v0 = true).
Proof.
  apply (returned_value_not_above_start (fun _ => EmptyString) square0
           [f32_2_0] [f32_1_0] 1 3 (mkState [] []) [S754_zero false]).
  - unfold lattice_in_range. simpl. lia.
  - vm_compute. reflexivity.
  - repeat constructor.
  - vm_compute. reflexivity.
Defined.

(** ** Steps above the tolerance of the convergence test *)

Lemma leb_trans (a b c : spec_float) :
  F32.leb a b = true -> F32.leb b c = true -> F32.leb a c = true.
Proof. destruct a, b, c; intros; float_order. Qed.

Lemma value_ge_mono (ma ea m m' e : Z) :
  m <= m' -> value_ge ma ea m e -> value_ge ma ea m' e.
Proof.
  unfold value_ge. intros Hm H.
  assert (0 <= 2 ^ (e - Z.min ea e)) by (apply Z.pow_nonneg; lia). nia.
Qed.

Lemma shr_fexp_stage_ge (ma ea m e : Z) :
  0 < ma < 2 ^ 24 -> -149 <= ea ->
  0 < m -> value_ge ma ea m e ->
  value_ge ma ea (shr_m (fst (shr_fexp 24 128 m e loc_Exact)))
    (snd (shr_fexp 24 128 m e loc_Exact)) /\
  0 < shr_m (fst (shr_fexp 24 128 m e loc_Exact)) < 2 ^ 24 /\
  -149 <= snd (shr_fexp 24 128 m e loc_Exact).
Proof.
  intros Hma Hea Hm HI. unfold shr_fexp. rewrite fexp32_eq. unfold fexp32.
  destruct (Zdigits2_pos m Hm) as (Hd & Hlo & Hhi).
  set (d := Zdigits2 m) in *.
  unfold shr, shr_record_of_loc.
  destruct (Z.max (d + e - 24) (-149) - e) as [|p|p] eqn:En; simpl fst; simpl snd;
    simpl shr_m.
  - repeat split; auto; try lia.
    apply Z.lt_le_trans with (2 ^ d); [lia|]. apply Z.pow_le_mono_r; lia.
  - rewrite iter_pos_shr_m by (simpl; lia). simpl shr_m.
    assert (HP : 0 < 2 ^ Zpos p) by (apply Z.pow_pos_nonneg; lia).
    assert (Hup : m / 2 ^ Zpos p < 2 ^ 24).
    { apply Z.div_lt_upper_bound; auto. rewrite <- Z.pow_add_r by lia.
      apply Z.lt_le_trans with (2 ^ d); [lia|]. apply Z.pow_le_mono_r; lia. }
    unfold value_ge in *.
    destruct (Z_le_gt_dec (e + Zpos p) ea) as [Hle|Hgt].
    + rewrite Z.min_r in * by lia. rewrite Z.sub_diag, Z.mul_1_r in *.
      assert (Hlow : 2 ^ Zpos p * (ma * 2 ^ (ea - (e + Zpos p))) <= m).
      { replace (2 ^ Zpos p * (ma * 2 ^ (ea - (e + Zpos p))))
          with (ma * (2 ^ (ea - (e + Zpos p)) * 2 ^ Zpos p)) by ring.
        rewrite <- Z.pow_add_r by lia.
        replace (ea - (e + Zpos p) + Zpos p) with (ea - e) by lia. exact HI. }
      assert (Hge : ma * 2 ^ (ea - (e + Zpos p)) <= m / 2 ^ Zpos p)
        by (apply Z.div_le_lower_bound; auto).
      assert (0 < 2 ^ (ea - (e + Zpos p))) by (apply Z.pow_pos_nonneg; lia).
      repeat split; try lia; nia.
    + rewrite (Z.min_l ea (e + Zpos p)) by lia. rewrite Z.sub_diag, Z.mul_1_r.
      assert (Ep : Zpos p = d - 24) by lia.
      assert (Hge : 2 ^ 23 <= m / 2 ^ Zpos p).
      { apply Z.div_le_lower_bound; auto. rewrite <- Z.pow_add_r by lia.
        apply Z.le_trans with (2 ^ (d - 1)); auto.
        apply Z.pow_le_mono_r; lia. }
      assert (H2 : 2 ^ 1 <= 2 ^ (e + Zpos p - ea))
        by (apply Z.pow_le_mono_r; lia).
      change (2 ^ 1) with 2 in H2. change (2 ^ 23) with 8388608 in *.
      change (2 ^ 24) with 16777216 in *.
      repeat split; try lia; nia.
  - repeat split; auto; try lia.
    apply Z.lt_le_trans with (2 ^ d); [lia|]. apply Z.pow_le_mono_r; lia.
Qed.

Lemma binary_round_aux_ge (sx : bool) (ma m : positive) (ea e : Z) :
  Zpos ma < 2 ^ 24 -> -149 <= ea -> (ea = -149 \/ 2 ^ 23 <= Zpos ma) ->
  value_ge (Zpos ma) ea (Zpos m) e ->
  F32.leb (S754_finite false ma ea)
    (F32.abs (binary_round_aux 24 128 sx (Zpos m) e loc_Exact)) = true.
Proof.
  intros Hma Hea Hcan HI. unfold binary_round_aux.
  destruct (shr_fexp_stage_ge (Zpos ma) ea (Zpos m) e) as (H1 & H2 & H3);
    try lia; auto.
  destruct (shr_fexp 24 128 (Zpos m) e loc_Exact) as [mrs' e']. simpl in H1, H2, H3.
  pose proof (round_nearest_even_ge (shr_m mrs') (loc_of_shr_record mrs')) as Hr.
  set (m2 := round_nearest_even (shr_m mrs') (loc_of_shr_record mrs')) in *.
  destruct (shr_fexp_stage_ge (Zpos ma) ea m2 e') as (H4 & H5 & H6);
    try lia; eauto using value_ge_mono.
  destruct (shr_fexp 24 128 m2 e' loc_Exact) as [mrs'' e'']. simpl in H4, H5, H6.
  destruct (shr_m mrs'') as [|p|p] eqn:Em; try lia.
  destruct (e'' <=? 128 - 24); [|reflexivity].
  unfold value_ge in H4.
  unfold F32.leb, F32.abs, SFleb, SFabs, SFcompare.
  destruct (Z.compare_spec ea e'') as [E|E|E]; auto.
  - subst e''. rewrite Z.min_id, Z.sub_diag, !Z.mul_1_r in H4.
    change (Pos.compare_cont Eq ma p) with (Pos.compare ma p).
    destruct (Pos.compare_spec ma p); auto; lia.
  - exfalso. rewrite Z.min_r, Z.sub_diag, Z.mul_1_r in H4 by lia.
    destruct Hcan as [Hcan|Hcan]; [lia|].
    assert (H2' : 2 ^ 1 <= 2 ^ (ea - e'')) by (apply Z.pow_le_mono_r; lia).
    change (2 ^ 1) with 2 in H2'. change (2 ^ 23) with 8388608 in *.
    change (2 ^ 24) with 16777216 in *. nia.
Qed.

Lemma valid_binary_canonical (s : bool) (m : positive) (e : Z) :
  valid_binary F32.prec F32.emax (S754_finite s m e) = true ->
  Zpos m < 2 ^ 24 /\ -149 <= e /\ (e = -149 \/ 2 ^ 23 <= Zpos m).
Proof.
  intros Hv. unfold valid_binary, bounded, canonical_mantissa in Hv.
  apply andb_prop in Hv. destruct Hv as (Hc & _).
  apply Z.eqb_eq in Hc. rewrite fexp32_eq in Hc. unfold fexp32 in Hc.
  pose proof (digits2_pos_bounds m) as (Hlo & Hhi).
  set (d := Zpos (digits2_pos m)) in *.
  assert (Hd : d <= 24) by lia.
  repeat split; try lia.
  - apply Z.lt_le_trans with (2 ^ d); auto. apply Z.pow_le_mono_r; lia.
  - destruct (Z.eq_dec e (-149)); [left; assumption|right].
    assert (d = 24) by lia.
    replace 23 with (d - 1) by lia. exact Hlo.
Qed.

(** A step times a nonzero level is at least the step in magnitude: the
    level has magnitude at least one and rounding is monotone. *)
Lemma mul_of_int_ge (a : spec_float) (s : Z) :
  nonzero_binary32 a -> s <> 0 ->
  F32.leb (F32.abs a) (F32.abs (F32.mul a (F32.of_int s))) = true.
Proof.
  intros (Hf & Hz & Hv) Hs.
  pose proof (of_int_magnitude s Hs) as Hb.
  destruct a as [| | |sa ma ea]; try discriminate.
  destruct (valid_binary_canonical sa ma ea Hv) as (H1 & H2 & H3).
  destruct (F32.of_int s) as [| | |sb mb eb]; try contradiction;
    [reflexivity|].
  destruct Hb as (Hb & HQ).
  unfold F32.mul, SFmul.
  change (F32.abs (S754_finite sa ma ea)) with (S754_finite false ma ea).
  apply binary_round_aux_ge; auto.
  unfold value_ge. rewrite Pos2Z.inj_mul.
  destruct (Z_le_gt_dec 0 eb) as [Hpos|Hneg].
  - rewrite Z.min_l by lia. rewrite Z.sub_diag, Z.mul_1_r.
    assert (Hp : 1 <= 2 ^ (ea + eb - ea)) by (apply (Z.pow_le_mono_r 2 0); lia).
    assert (Hm : Zpos ma <= Zpos ma * Zpos mb) by nia.
    apply Z.le_trans with (Zpos ma * Zpos mb * 1); [lia|].
    apply Z.mul_le_mono_nonneg_l; lia.
  - destruct HQ as [HQ|HQ]; [lia|].
    rewrite Z.min_r by lia. rewrite Z.sub_diag, Z.mul_1_r.
    replace (ea - (ea + eb)) with (- eb) by lia.
    apply Z.mul_le_mono_nonneg_l; lia.
Qed.

Lemma isMuchSmallerThan_one (c : spec_float) :
  isMuchSmallerThan c (F32.of_int 1) F32.dummy_precision
  = F32.leb (F32.abs c) F32.dummy_precision.
Proof. reflexivity. Qed.

Lemma product_above_tolerance (a : spec_float) (s : Z) :
  above_tolerance a -> s <> 0 ->
  isMuchSmallerThan (F32.mul a (F32.of_int s)) (F32.of_int 1)
    F32.dummy_precision = false.
Proof.
  intros (Ha & Htol) Hs. rewrite isMuchSmallerThan_one.
  destruct (F32.leb (F32.abs (F32.mul a (F32.of_int s))) F32.dummy_precision)
    eqn:E; auto.
  rewrite <- Htol. symmetry.
  apply leb_trans with (F32.abs (F32.mul a (F32.of_int s))); auto.
  now apply mul_of_int_ge.
Qed.

Lemma isZero_nth (v : VectorXf) (j : nat) :
  isZero v = true -> (j < length v)%nat ->
  isMuchSmallerThan (nth j v S754_nan) (F32.of_int 1) F32.dummy_precision
  = true.
Proof.
  unfold isZero. rewrite forallb_forall. intros H Hj. apply H, nth_In, Hj.
Qed.

(** With steps above the tolerance the convergence test is exact on the
    lattice: a row it accepts is a row of zeros. *)
Lemma isZero_exact_above_tolerance (dx : VectorXf) (k : Z) (i : nat) :
  Forall above_tolerance dx ->
  isZero (dxArMg_row dx k i) = true -> all_zero (dxArMg_row dx k i) = true.
Proof.
  intros Hdx Hz. apply all_zero_nth. intros j Hj.
  pose proof (isZero_nth _ j Hz Hj) as Hc.
  rewrite length_dxArMg_row in Hj.
  rewrite nth_dxArMg_row in * by exact Hj.
  rewrite Forall_forall in Hdx.
  assert (Ha : above_tolerance (nth j dx S754_nan)) by (apply Hdx, nth_In, Hj).
  set (s := searchRangeValue _ _ _) in *.
  destruct (Z.eq_dec s 0) as [E|E].
  - rewrite E. apply mul_zero_level. apply Ha.
  - rewrite product_above_tolerance in Hc by auto. discriminate.
Qed.

Lemma In_dxArMg (dx : VectorXf) (k : Z) (off : VectorXf) :
  In off (dxArMg dx k) ->
  exists i, (i < sizeMg k (length dx))%nat /\ off = dxArMg_row dx k i.
Proof.
  unfold dxArMg. intros Hin. apply in_map_iff in Hin.
  destruct Hin as (i & <- & Hi). apply in_seq in Hi. exists i. split; [lia|auto].
Qed.

(** X6.  A lattice offset is never shorter than a step: where the level of
    coordinate [j] at index [i] is not zero and the step is a nonzero finite
    binary32 number, the magnitude of the offset's coordinate, a rounded
    product that may overflow to infinity, is at least the step's. *)
Theorem offsets_at_least_a_step (dx : VectorXf) (k : Z) (i j : nat) :
  lattice_in_range k (length dx) ->
  (i < sizeMg k (length dx))%nat -> (j < length dx)%nat ->
  nonzero_binary32 (nth j dx S754_nan) ->
  spec_level k (length dx) i j <> 0 ->
  F32.leb (F32.abs (nth j dx S754_nan))
    (F32.abs (nth j (nth i (dxArMg dx k) []) S754_nan)) = true.
Proof.
  intros HR Hi Hj Ha Hs.
  rewrite nth_dxArMg, nth_dxArMg_row, searchRangeValue_level by auto.
  now apply mul_of_int_ge.
Qed.

Lemma offsets_at_least_a_step_witness :
  F32.leb (F32.abs (nth 0 [f32_0_5] S754_nan))
    (F32.abs (nth 0 (nth 0 (dxArMg [f32_0_5] 1) []) S754_nan)) = true.
Proof.
  apply (offsets_at_least_a_step [f32_0_5] 1 0 0).
  - unfold lattice_in_range. simpl. lia.
  - vm_compute. lia.
  - simpl. lia.
  - repeat split; reflexivity.
  - vm_compute. discriminate.
Defined.

(** X17.  Inside the domain of the container, when every step is a finite
    number of magnitude above [1e-5f], a point
    the minimiser returns is a local minimum of the lattice: measured through
    the cache handed back, no neighbour of the returned point within [k]
    steps has a strictly smaller value than the returned point. *)
Theorem local_minimum_for_steps_above_tolerance
    (toString : VectorXf -> string) (f : VectorXf -> spec_float)
    (x dx : VectorXf) (k maxiter : Z) (st : State) (ret : VectorXf) :
  let dx' := snd (parse_parameters x dx) in
  let run := minimize_discrete_stepwise_cpp toString f x st dx k maxiter in
  lattice_in_range k (length dx') ->
  run_in_domain f x st dx k maxiter = true ->
  Forall above_tolerance dx' ->
  fst run = Return ret ->
  exists w, lookup (results_cache (snd run)) ret = Some w /\
    forall off, In off (dxArMg dx' k) ->
      exists v, lookup (results_cache (snd run)) (add_row off ret) = Some v /\
                F32.ltb v w = false.
Proof.
  unfold minimize_discrete_stepwise_cpp.
  destruct (parse_parameters x dx) as [x' dx']. simpl.
  intros HR _ Hdx Hret.
  apply local_minimum_when_zero_test_is_exact with (d := length dx'); auto.
  - now apply dxArMg_rows_bound.
  - apply dxArMg_dim.
  - intros off Hin Hz. destruct (In_dxArMg dx' k off Hin) as (i & _ & ->).
    now apply isZero_exact_above_tolerance.
Qed.

Lemma local_minimum_for_steps_above_tolerance_witness :
  exists w,
    lookup (results_cache
              (snd (minimize_discrete_stepwise_cpp (fun _ => EmptyString)
                      square0 [f32_2_0] (mkState [] []) [f32_0_5] 1 5)))
      [S754_zero false] = Some w /\
    forall off, In off (dxArMg [f32_0_5] 1) ->
      exists v,
        lookup (results_cache
                  (snd (minimize_discrete_stepwise_cpp (fun _ => EmptyString)
                          square0 [f32_2_0] (mkState [] []) [f32_0_5] 1 5)))
          (add_row off [S754_zero false]) = Some v /\
        F32.ltb v w = false.
Proof.
  apply (local_minimum_for_steps_above_tolerance
           (fun _ => EmptyString) square0 [f32_2_0] [f32_0_5] 1 5
           (mkState [] []) [S754_zero false]).
  - unfold lattice_in_range. simpl. lia.
  - vm_compute. reflexivity.
  - repeat constructor.
  - vm_compute. reflexivity.
Defined.

(** X18.  When every step is a finite number of magnitude above [1e-5f], the
    minimiser returns only from an iteration whose selected candidate is the
    centre of the lattice, index [((2k+1)^d - 1) / 2]: the returned point is
    that iteration's current point, up to the sign of zeros, and the state
    handed back is the state after that iteration's pass. *)
Theorem returns_only_at_the_centre (toString : VectorXf -> string)
    (f : VectorXf -> spec_float) (x dx : VectorXf) (k maxiter : Z)
    (st : State) (ret : VectorXf) :
  let dx' := snd (parse_parameters x dx) in
  let run := minimize_discrete_stepwise_cpp toString f x st dx k maxiter in
  lattice_in_range k (length dx') ->
  Forall above_tolerance dx' ->
  fst run = Return ret ->
  exists xc stc,
    snd (fst (select f (dxArMg dx' k) xc stc)) = zero_index k (length dx') /\
    Forall2 zero_eq ret xc /\
    snd run = snd (select f (dxArMg dx' k) xc stc).
Proof.
  unfold minimize_discrete_stepwise_cpp.
  destruct (parse_parameters x dx) as [x' dx']. simpl.
  intros HR Hdx Hret. pose proof HR as (Hk & _).
  destruct (descend_Return toString f (dxArMg dx' k) (length dx')
              (Z.to_nat maxiter) x' st ret Hret)
    as (xc & stc & off & Hxc & Hoff & Hz & Hrow & Hst).
  exists xc, stc.
  set (im := snd (fst (select f (dxArMg dx' k) xc stc))) in *.
  apply row_Some in Hoff. destruct Hoff as (Him & ->).
  apply row_Some in Hrow. destruct Hrow as (_ & ->).
  rewrite length_dxArMg in Him.
  assert (Hi : (Z.to_nat im < sizeMg k (length dx'))%nat) by lia.
  rewrite nth_dxArMg in Hz by exact Hi.
  pose proof (isZero_exact_above_tolerance dx' k _ Hdx Hz) as Hall.
  assert (E : Z.to_nat im = Z.to_nat (zero_index k (length dx'))).
  { apply all_zero_row_unique; auto. apply nonzero_steps_nonvanishing.
    eapply Forall_impl; [|exact Hdx]. intros a Ha. apply Ha. }
  pose proof (zero_index_bound k Hk (length dx')) as Hzb.
  repeat split; auto; [lia|].
  rewrite nth_rowwise_add by (rewrite length_dxArMg; exact Hi).
  rewrite nth_dxArMg by exact Hi.
  apply add_row_zero_eq_self; auto. now rewrite length_dxArMg_row.
Qed.

Lemma returns_only_at_the_centre_witness :
  exists xc stc,
    snd (fst (select square0 (dxArMg [f32_0_5] 1) xc stc)) = zero_index 1 1 /\
    Forall2 zero_eq [S754_zero false] xc /\
    snd (minimize_discrete_stepwise_cpp (fun _ => EmptyString) square0
           [f32_2_0] (mkState [] []) [f32_0_5] 1 5)
    = snd (select square0 (dxArMg [f32_0_5] 1) xc stc).
Proof.
  apply (returns_only_at_the_centre (fun _ => EmptyString) square0 [f32_2_0]
           [f32_0_5] 1 5 (mkState [] []) [S754_zero false]).
  - unfold lattice_in_range. simpl. lia.
  - repeat constructor.
  - vm_compute. reflexivity.
Defined.

(** ** The size assertion of line 106 *)

Lemma descend_no_size_mismatch (toString : VectorXf -> string)
    (f : VectorXf -> spec_float) (dxAr : MatrixXf) (d n : nat)
    (x : VectorXf) (st : State) :
  Forall (fun off => length off = d) dxAr -> length x = d ->
  fst (descend toString f dxAr d n x st) <> Size_mismatch.
Proof.
  intros Hdim. revert x st.
  induction n as [|n IH]; intros x st Hx; simpl; [discriminate|].
  destruct (Nat.eqb_spec (length x) d) as [_|Hne]; [simpl|contradiction].
  destruct (select f dxAr x st) as [[m im] st1].
  destruct (row (rowwise_add dxAr x) im) as [x1|] eqn:E1; [|discriminate].
  destruct (row dxAr im) as [off|]; [|discriminate].
  destruct (isZero off); [discriminate|].
  apply IH. eapply nth_dim; [|exact E1]. now apply rowwise_add_dim.
Qed.

(** X13.  When the parsed point and the parsed step vector have the same number of
    coordinates, the row-wise sum of line 106 is well-sized in every
    iteration, not only the first: every candidate, and so every later
    current point, has that number of coordinates. *)
Theorem sizes_agree_in_every_iteration (toString : VectorXf -> string)
    (f : VectorXf -> spec_float) (x dx : VectorXf) (k maxiter : Z)
    (st : State) :
  length (fst (parse_parameters x dx)) = length (snd (parse_parameters x dx)) ->
  fst (minimize_discrete_stepwise_cpp toString f x st dx k maxiter)
  <> Size_mismatch /\
  fst (maximize_discrete_stepwise_cpp toString f x st dx k maxiter)
  <> Size_mismatch.
Proof.
  unfold maximize_discrete_stepwise_cpp, minimize_discrete_stepwise_cpp.
  destruct (parse_parameters x dx) as [x' dx']. simpl. intros Hlen.
  split; apply descend_no_size_mismatch; auto using dxArMg_dim.
Qed.

Lemma sizes_agree_in_every_iteration_witness :
  fst (minimize_discrete_stepwise_cpp (fun _ => EmptyString) coord0
         [f32_2_0] (mkState [] []) [f32_0_5; f32_0_5] 1 2)
  <> Size_mismatch /\
  fst (maximize_discrete_stepwise_cpp (fun _ => EmptyString) coord0
         [f32_2_0] (mkState [] []) [f32_0_5; f32_0_5] 1 2)
  <> Size_mismatch.
Proof.
  apply (sizes_agree_in_every_iteration (fun _ => EmptyString) coord0
           [f32_2_0] [f32_0_5; f32_0_5] 1 2 (mkState [] [])).
  reflexivity.
Defined.

(** ** Memoisation on the domain of the container *)

Lemma lookup_Some_In (c : Cache) (key : VectorXf) (v : spec_float) :
  lookup c key = Some v ->
  exists k, In (k, v) c /\ key_equiv k key = true.
Proof.
  induction c as [|[k w] c IH]; simpl; [discriminate|].
  destruct (key_equiv k key) eqn:E.
  - intros [= <-]. eauto.
  - intros H. destruct (IH H) as (k' & Hin & Hk). eauto.
Qed.

(** Every key presented during a run is found in the cache the run leaves. *)
Lemma presented_stored (toString : VectorXf -> string)
    (f : VectorXf -> spec_float) (dxAr : MatrixXf) (d n : nat)
    (x : VectorXf) (st : State) (key : VectorXf) :
  In key (presented f dxAr d n x st) ->
  exists v,
    lookup (results_cache (snd (descend toString f dxAr d n x st))) key
    = Some v.
Proof.
  revert x st. induction n as [|n IH]; intros x st; simpl; [intros []|].
  destruct (negb (length x =? d)%nat); [intros []|].
  pose proof (select_state f dxAr x st) as Hst.
  destruct (select f dxAr x st) as [[m im] st1]. simpl in Hst.
  intros Hin. apply in_app_or in Hin.
  assert (Hpass : In key (rowwise_add dxAr x) ->
                  exists v, lookup (results_cache st1) key = Some v).
  { intros Hk. destruct (In_nth _ _ [] Hk) as (i & Hi & <-).
    rewrite Hst. eexists. now apply evaluate_all_stored. }
  destruct (row (rowwise_add dxAr x) im) as [x1|];
    [|destruct Hin as [Hk|[]]; auto].
  destruct (row dxAr im) as [off|]; [|destruct Hin as [Hk|[]]; auto].
  destruct (isZero off); [destruct Hin as [Hk|[]]; auto|].
  destruct Hin as [Hk|Hk]; [|auto].
  destruct (Hpass Hk) as (v & Hv). exists v.
  eapply extends_lookup; [apply descend_extends|exact Hv].
Qed.










(** ** The maximisation adapter *)

Lemma cache_is_log_evaluate (g : VectorXf -> spec_float) (key : VectorXf)
    (st : State) :
  results_cache st = map (fun k => (k, g k)) (calls st) ->
  results_cache (snd (evaluate g key st))
  = map (fun k => (k, g k)) (calls (snd (evaluate g key st))).
Proof.
  intros H. rewrite evaluate_cache, evaluate_calls.
  destruct (lookup (results_cache st) key); auto.
  now rewrite map_app, H.
Qed.

(** C8.  The maximiser is the minimiser run on the negated objective: same
    outcome (returned point or failure) and same final state, from every
    state.  After a maximise call on an empty cache, inside the domain of the
    container (no candidate with a NaN coordinate): the cache consists of
    the points at which the objective was evaluated, in the order of their
    evaluation, each with the negated objective at that point; every
    evaluated point is mapped to its negated value; and every candidate
    presented during the call is mapped to the negated value of the evaluated
    point the comparator identifies it with. *)
Theorem maximize_is_minimize_of_negation (toString : VectorXf -> string)
    (f : VectorXf -> spec_float) (x dx : VectorXf)
    (search_range maxiter : Z) :
  (forall st,
     maximize_discrete_stepwise_cpp toString f x st dx search_range maxiter
     = minimize_discrete_stepwise_cpp toString (fun a => F32.neg (f a))
         x st dx search_range maxiter)
  /\
  (run_in_domain (fun a => F32.neg (f a)) x (mkState [] []) dx search_range
     maxiter = true ->
   let st' := snd (maximize_discrete_stepwise_cpp toString f x (mkState [] [])
                     dx search_range maxiter) in
   results_cache st' = map (fun key => (key, F32.neg (f key))) (calls st') /\
   (forall key, In key (calls st') ->
      lookup (results_cache st') key = Some (F32.neg (f key))) /\
   (forall key,
      In key (presented_by (fun a => F32.neg (f a)) x (mkState [] []) dx
                search_range maxiter) ->
      exists key0, In key0 (calls st') /\ key_equiv key0 key = true /\
                   lookup (results_cache st') key = Some (F32.neg (f key0)))).
Proof.
  split; [reflexivity|].
  intros _ st'.
  set (g := fun a => F32.neg (f a)).
  assert (Hlog : results_cache st' = map (fun key => (key, g key)) (calls st')).
  { subst st'. unfold maximize_discrete_stepwise_cpp.
    apply minimize_preserves
      with (P := fun s => results_cache s = map (fun k => (k, g k)) (calls s));
      [intros key s; apply cache_is_log_evaluate|reflexivity]. }
  assert (Hcache : cache_of g st').
  { subst st'. unfold maximize_discrete_stepwise_cpp.
    apply minimize_preserves with (P := cache_of g).
    - intros key s. apply cache_of_evaluate.
    - split; simpl; intros ? ?; contradiction. }
  split; [exact Hlog|]. split; [apply Hcache|].
  intros key Hin.
  assert (Hv : exists v, lookup (results_cache st') key = Some v).
  { subst st'. unfold maximize_discrete_stepwise_cpp,
      minimize_discrete_stepwise_cpp, presented_by in *.
    destruct (parse_parameters x dx) as [x' dx'].
    now apply presented_stored. }
  destruct Hv as (v & Hv).
  destruct (lookup_Some_In _ _ _ Hv) as (key0 & Hin0 & Hk).
  rewrite Hlog in Hin0. apply in_map_iff in Hin0.
  destruct Hin0 as (k & [= -> <-] & Hk0).
  exists key0. auto.
Qed.

Lemma maximize_is_minimize_of_negation_witness :
  let run := maximize_discrete_stepwise_cpp (fun _ => EmptyString) neg_coord0
               [S754_zero false] (mkState [] []) [f32_1_0] 1 2 in
  results_cache (snd run)
  = map (fun key => (key, F32.neg (neg_coord0 key))) (calls (snd run)) /\
  length (results_cache (snd run)) = 4%nat.
Proof.
  intros run.
  destruct (maximize_is_minimize_of_negation (fun _ => EmptyString) neg_coord0
              [S754_zero false] [f32_1_0] 1 2) as (_ & H).
  destruct (H ltac:(vm_compute; reflexivity)) as (Hlog & _).
  split; [exact Hlog|]. vm_compute. reflexivity.
Defined.
